(** * C-PAC: workflow builders and the FSL model configuration window

    A shallow embedding of
      - [CPAC/seg_preproc/seg_preproc.py]  ([create_seg_preproc]),
      - [CPAC/sca/sca.py]                  ([create_sca]),
      - [CPAC/GUI/interface/utils/modelconfig_window.py]
                                           ([ModelConfig.validate], [ModelConfig.save]).

    The two builders are sequences of object allocations ([pe.Node],
    [pe.MapNode], [clone]), attribute assignments ([node.inputs.x = v]) and
    [connect] calls on a workflow object.  They are embedded in a state and
    error monad over an explicit object store, so that what a second call
    sees of the first one is part of the model. *)

From stdpp Require Import base option list strings gmap pretty.
From Stdlib Require Import ZArith Lia Ascii.

Local Open Scope string_scope.
Local Open Scope list_scope.
#[local] Set Warnings "-register-all".

(** ** Python values *)

(** The values that appear as node parameters, as substitutes of the
    configuration window and as results of [ast.literal_eval].  A float is
    kept as the text of its literal. *)
Inductive pyobj : Type :=
  | PyNone
  | PyBool (b : bool)
  | PyInt (z : Z)
  | PyFloat (literal : string)
  | PyStr (s : string)
  | PyList (l : list pyobj)
  | PyTuple (l : list pyobj)
  | PyDict (items : list (pyobj * pyobj)).

(** ** The workflow objects *)

Module Engine.

(** The interfaces the two builders instantiate. *)
Inductive interface : Type :=
  | IdentityInterface (fields : list string)
  | Function (input_names output_names : list string) (function : string)
  | FAST
  | FLIRT
  | ApplyWarp
  | MultiImageMaths
  | ImageMaths
  | ROIStats
  | Fim
  | Threedcalc.

(** The functions a connection is passed through.  [form_threshold_string]
    is local to [create_seg_preproc]; the others are imported from the
    packages' utilities. *)
Inductive transform : Type :=
  | pick_wm_0
  | pick_wm_1
  | pick_wm_2
  | form_threshold_string
  | set_gauss.

(** A node object: [iterfield] is [None] for a [pe.Node] and the list of the
    iterated input ports for a [pe.MapNode]; [inputs] holds the parameters
    assigned through [node.inputs]. *)
Record node : Type := mk_node {
  name : string;
  iface : interface;
  iterfield : option (list string);
  inputs : gmap string pyobj
}.

(** An edge between ports, over node identifiers of type [N]: object
    references in the store, node names in the finished graph. *)
Record edge (N : Type) : Type := mk_edge {
  src : N;
  src_port : string;
  via : option transform;
  dst : N;
  dst_port : string
}.
Arguments mk_edge {N}.
Arguments src {N}.
Arguments src_port {N}.
Arguments via {N}.
Arguments dst {N}.
Arguments dst_port {N}.

Definition edge_map {N N'} (f : N → N') (e : edge N) : edge N' :=
  mk_edge (f (src e)) (src_port e) (via e) (f (dst e)) (dst_port e).

Abbreviation noderef := nat (only parsing).
Abbreviation wfref := nat (only parsing).

(** A workflow object: the nodes it has been told about, in the order
    [connect] met them, and its connections, in the order of the calls. *)
Record workflow : Type := mk_workflow {
  wf_name : string;
  wf_nodes : list noderef;
  wf_edges : list (edge noderef)
}.

(** The object store: a reference is the position of the object. *)
Record world : Type := mk_world {
  nodes : list node;
  workflows : list workflow
}.

Definition empty_world : world := mk_world [] [].

(** State and error monad of the builders. *)
Definition M (A : Type) : Type := world → option (A * world).

#[export] Instance M_ret : MRet M := λ A a w, Some (a, w).
#[export] Instance M_bind : MBind M := λ A B f m w,
  match m w with
  | Some (a, w') => f a w'
  | None => None
  end.

Definition alloc_node (nd : node) : M noderef := λ w,
  Some (length (nodes w), mk_world (nodes w ++ [nd]) (workflows w)).

(** [pe.Workflow(name=...)] *)
Definition Workflow (name : string) : M wfref := λ w,
  Some (length (workflows w),
        mk_world (nodes w) (workflows w ++ [mk_workflow name [] []])).

(** [pe.Node(interface, name=...)] *)
Definition Node (interface : interface) (name : string) : M noderef :=
  alloc_node (mk_node name interface None ∅).

(** [pe.MapNode(interface, name=..., iterfield=[...])] *)
Definition MapNode (interface : interface) (name : string)
    (iterfield : list string) : M noderef :=
  alloc_node (mk_node name interface (Some iterfield) ∅).

(** [node.inputs.<field> = value] *)
Definition set_input (r : noderef) (field : string) (value : pyobj) : M unit := λ w,
  match nodes w !! r with
  | Some nd =>
      let nd' := mk_node (name nd) (iface nd) (iterfield nd)
                         (<[field := value]> (inputs nd)) in
      Some (tt, mk_world (<[r := nd']> (nodes w)) (workflows w))
  | None => None
  end.

(** [node.clone(name)]: a deep copy of the node object under a new name. *)
Definition clone (r : noderef) (new_name : string) : M noderef := λ w,
  match nodes w !! r with
  | Some nd => alloc_node (mk_node new_name (iface nd) (iterfield nd) (inputs nd)) w
  | None => None
  end.

Definition add_node (r : noderef) (l : list noderef) : list noderef :=
  if decide (r ∈ l) then l else l ++ [r].

Definition add_connection (e : edge noderef) (wf : workflow) : workflow :=
  mk_workflow (wf_name wf)
              (add_node (dst e) (add_node (src e) (wf_nodes wf)))
              (wf_edges wf ++ [e]).

Definition record_edge (q : wfref) (e : edge noderef) : M unit := λ w,
  match workflows w !! q with
  | Some wf => Some (tt, mk_world (nodes w) (<[q := add_connection e wf]> (workflows w)))
  | None => None
  end.

(** [wf.connect(src, 'port', dst, 'port')]: the two nodes join the workflow
    if they are new to it, and the edge is recorded. *)
Definition connect (q : wfref) (s : noderef) (sp : string)
    (d : noderef) (dp : string) : M unit :=
  record_edge q (mk_edge s sp None d dp).

(** [wf.connect(src, ('port', function), dst, 'port')] *)
Definition connect_via (q : wfref) (s : noderef) (sp : string) (f : transform)
    (d : noderef) (dp : string) : M unit :=
  record_edge q (mk_edge s sp (Some f) d dp).

End Engine.

(** ** Seed-based correlation analysis: [CPAC/sca/sca.py] *)

Module Sca.
Import Engine.

(** The connections of the [if extraction_space == 'native'] branch. *)
Definition extract_native (rsfc : wfref)
    (inputNode inputnode_seed_list warp_to_native time_series printToFile corr : noderef)
    : M unit :=
  connect rsfc inputNode "ref" warp_to_native "ref_file" ;;
  connect rsfc inputNode "fieldcoeff_file" warp_to_native "field_file" ;;
  connect rsfc inputNode "postmat" warp_to_native "postmat" ;;
  connect rsfc inputnode_seed_list "seed_list" warp_to_native "in_file" ;;
  connect rsfc inputNode "rest_res_filt" time_series "in_file" ;;
  connect rsfc warp_to_native "out_file" time_series "mask" ;;
  connect rsfc time_series "stats" printToFile "time_series" ;;
  connect rsfc printToFile "ts_oneD" corr "ideal_file" ;;
  connect rsfc inputNode "rest_res_filt" corr "in_file".

(** The connections of the [else] branch. *)
Definition extract_standard (rsfc : wfref)
    (inputNode inputnode_seed_list warp_filt time_series printToFile corr : noderef)
    : M unit :=
  connect rsfc inputNode "rest_res_filt" warp_filt "in_file" ;;
  connect rsfc inputNode "standard" warp_filt "ref_file" ;;
  connect rsfc inputNode "fieldcoeff_file" warp_filt "field_file" ;;
  connect rsfc inputNode "premat" warp_filt "premat" ;;
  connect rsfc warp_filt "out_file" time_series "in_file" ;;
  connect rsfc time_series "stats" printToFile "time_series" ;;
  connect rsfc inputnode_seed_list "seed_list" time_series "mask" ;;
  connect rsfc printToFile "ts_oneD" corr "ideal_file" ;;
  connect rsfc inputNode "rest_res_filt" corr "in_file".

Definition create_sca (extraction_space : string) : M wfref :=
  rsfc ← Workflow "sca_workflow" ;
  inputNode ← Node (IdentityInterface
                      ["ref"; "premat"; "postmat"; "rest_res_filt";
                       "fieldcoeff_file"; "rest_mask2standard"; "standard"])
                   "inputspec" ;
  inputnode_fwhm ← Node (IdentityInterface ["fwhm"]) "fwhm_input" ;
  inputnode_seed_list ← Node (IdentityInterface ["seed_list"]) "seed_list_input" ;
  outputNode ← Node (IdentityInterface
                       ["correlations"; "Z_trans_correlations"; "Z_FWHM";
                        "Z_2standard"; "Z_2standard_FWHM"])
                    "outputspec" ;
  printToFile ← MapNode (Function ["time_series"] ["ts_oneD"] "pToFile")
                        "print_timeseries_to_file" ["time_series"] ;
  (* 0. Register Seed template in to native space *)
  warp_to_native ← MapNode ApplyWarp "warp_to_native" ["ref_file"; "postmat"] ;
  set_input warp_to_native "interp" (PyStr "nn") ;;
  warp ← MapNode ApplyWarp "warp_to_standard" ["in_file"; "premat"] ;
  warp_filt ← clone warp "warp_to_standard_input_functional" ;
  (* 1. Extract Timeseries *)
  time_series ← MapNode ROIStats "time_series" ["in_file"] ;
  set_input time_series "quiet" (PyBool true) ;;
  set_input time_series "mask_f2short" (PyBool true) ;;
  (* 2. Compute voxel-wise correlation with Seed Timeseries *)
  corr ← MapNode Fim "corr" ["in_file"; "ideal_file"] ;
  set_input corr "fim_thr" (PyFloat "0.0009") ;;
  set_input corr "out" (PyStr "Correlation") ;;
  (* 3. Z-transform correlations *)
  z_trans ← MapNode Threedcalc "z_trans" ["infile_a"] ;
  set_input z_trans "expr" (PyStr "'log((1+a)/(1-a))/2'") ;;
  (* 4. Register Z-transformed correlations to standard space *)
  register ← MapNode ApplyWarp "register" ["premat"; "in_file"] ;
  smooth ← MapNode MultiImageMaths "smooth" ["in_file"; "operand_files"] ;
  smooth_mni ← clone smooth "smooth_mni" ;
  (if decide (extraction_space = "native")
   then extract_native rsfc inputNode inputnode_seed_list warp_to_native
                       time_series printToFile corr
   else extract_standard rsfc inputNode inputnode_seed_list warp_filt
                         time_series printToFile corr) ;;
  connect rsfc corr "out_file" z_trans "infile_a" ;;
  connect rsfc z_trans "out_file" warp "in_file" ;;
  connect rsfc inputNode "standard" warp "ref_file" ;;
  connect rsfc inputNode "fieldcoeff_file" warp "field_file" ;;
  connect rsfc inputNode "premat" warp "premat" ;;
  connect rsfc warp "out_file" smooth_mni "in_file" ;;
  connect_via rsfc inputnode_fwhm "fwhm" set_gauss smooth_mni "op_string" ;;
  connect rsfc inputNode "rest_mask2standard" smooth_mni "operand_files" ;;
  connect rsfc smooth_mni "out_file" outputNode "Z_FWHM" ;;
  connect rsfc corr "out_file" outputNode "correlations" ;;
  connect rsfc z_trans "out_file" outputNode "Z_trans_correlations" ;;
  mret rsfc.

End Sca.

(** ** Tissue segmentation: [CPAC/seg_preproc/seg_preproc.py] *)

Module SegPreproc.
Import Engine.

Definition create_seg_preproc : M wfref :=
  preproc ← Workflow "seg_preproc" ;
  inputNode ← Node (IdentityInterface
                      ["preprocessed_mask"; "brain"; "standard_res_brain";
                       "example_func"; "highres2example_func_mat";
                       "stand2highres_warp"; "PRIOR_CSF"; "PRIOR_GRAY";
                       "PRIOR_WHITE"])
                   "inputspec" ;
  inputnode_csf_threshold ← Node (IdentityInterface ["csf_threshold"]) "csf_threshold" ;
  inputnode_wm_threshold ← Node (IdentityInterface ["wm_threshold"]) "wm_threshold" ;
  inputnode_gm_threshold ← Node (IdentityInterface ["gm_threshold"]) "gm_threshold" ;
  outputNode ← Node (IdentityInterface
                       ["csf_t12func"; "csf_mni2func"; "csf_combo"; "csf_bin";
                        "csf_mask"; "gm_t12func"; "gm_mni2func"; "gm_combo";
                        "gm_bin"; "gm_mask"; "global_mask"; "wm_t12func";
                        "wm_mni2func"; "wm_combo"; "wm_bin"; "probability_maps";
                        "mixeltype"; "partial_volume_map"; "partial_volume_files";
                        "wm_mask"])
                    "outputspec" ;
  segment ← Node FAST "segment" ;
  set_input segment "img_type" (PyInt 1) ;;
  set_input segment "segments" (PyBool true) ;;
  set_input segment "probability_maps" (PyBool true) ;;
  set_input segment "out_basename" (PyStr "segment") ;;
  csf_t1_to_native ← MapNode FLIRT "csf_t1_to_native" ["reference"; "in_matrix_file"] ;
  set_input csf_t1_to_native "apply_xfm" (PyBool true) ;;
  csf_mni_to_native ← MapNode ApplyWarp "csf_mni_to_native" ["ref_file"; "postmat"] ;
  set_input csf_mni_to_native "interp" (PyStr "nn") ;;
  wm_mni_to_native ← clone csf_mni_to_native "wm_mni_to_native" ;
  overlap_csf_with_prior ← MapNode MultiImageMaths "overlap_csf_with_prior"
                                   ["in_file"; "operand_files"] ;
  set_input overlap_csf_with_prior "op_string" (PyStr "-mas %s ") ;;
  binarize_threshold_csf ← MapNode ImageMaths "binarize_threshold_csf" ["in_file"] ;
  csf_mask ← MapNode MultiImageMaths "csf_mask" ["in_file"; "operand_files"] ;
  set_input csf_mask "op_string" (PyStr "-mas %s ") ;;
  overlap_wm_with_prior ← MapNode MultiImageMaths "overlap_wm_with_prior"
                                  ["in_file"; "operand_files"] ;
  set_input overlap_wm_with_prior "op_string" (PyStr "-mas %s ") ;;
  binarize_threshold_wm ← MapNode ImageMaths "binarize_threshold_wm" ["in_file"] ;
  wm_t1_to_native ← MapNode FLIRT "wm_t1_to_native" ["reference"; "in_matrix_file"] ;
  set_input wm_t1_to_native "apply_xfm" (PyBool true) ;;
  wm_mask ← clone csf_mask "wm_mask" ;
  gm_t1_to_native ← clone wm_t1_to_native "gm_t1_to_native" ;
  binarize_threshold_gm ← clone binarize_threshold_csf "binarize_threshold_gm" ;
  gm_mni_to_native ← clone wm_mni_to_native "gm_mni_to_native" ;
  overlap_gm_with_prior ← clone overlap_wm_with_prior "overlap_gm_with_prior" ;
  gm_mask ← clone csf_mask "gm_mask" ;
  connect preproc inputNode "brain" segment "in_files" ;;
  connect_via preproc segment "probability_maps" pick_wm_0 csf_t1_to_native "in_file" ;;
  connect preproc inputNode "example_func" csf_t1_to_native "reference" ;;
  connect preproc inputNode "highres2example_func_mat" csf_t1_to_native "in_matrix_file" ;;
  connect preproc inputNode "example_func" csf_mni_to_native "ref_file" ;;
  connect preproc inputNode "stand2highres_warp" csf_mni_to_native "field_file" ;;
  connect preproc inputNode "PRIOR_CSF" csf_mni_to_native "in_file" ;;
  connect preproc inputNode "highres2example_func_mat" csf_mni_to_native "postmat" ;;
  connect preproc csf_t1_to_native "out_file" overlap_csf_with_prior "in_file" ;;
  connect preproc csf_mni_to_native "out_file" overlap_csf_with_prior "operand_files" ;;
  connect preproc overlap_csf_with_prior "out_file" binarize_threshold_csf "in_file" ;;
  connect_via preproc inputnode_csf_threshold "csf_threshold" form_threshold_string
              binarize_threshold_csf "op_string" ;;
  connect preproc binarize_threshold_csf "out_file" csf_mask "in_file" ;;
  connect preproc inputNode "preprocessed_mask" csf_mask "operand_files" ;;
  connect_via preproc segment "probability_maps" pick_wm_2 wm_t1_to_native "in_file" ;;
  connect preproc inputNode "example_func" wm_t1_to_native "reference" ;;
  connect preproc inputNode "highres2example_func_mat" wm_t1_to_native "in_matrix_file" ;;
  connect preproc inputNode "example_func" wm_mni_to_native "ref_file" ;;
  connect preproc inputNode "stand2highres_warp" wm_mni_to_native "field_file" ;;
  connect preproc inputNode "PRIOR_WHITE" wm_mni_to_native "in_file" ;;
  connect preproc inputNode "highres2example_func_mat" wm_mni_to_native "postmat" ;;
  connect preproc wm_t1_to_native "out_file" overlap_wm_with_prior "in_file" ;;
  connect preproc wm_mni_to_native "out_file" overlap_wm_with_prior "operand_files" ;;
  connect preproc overlap_wm_with_prior "out_file" binarize_threshold_wm "in_file" ;;
  connect_via preproc inputnode_wm_threshold "wm_threshold" form_threshold_string
              binarize_threshold_wm "op_string" ;;
  connect preproc binarize_threshold_wm "out_file" wm_mask "in_file" ;;
  connect preproc inputNode "preprocessed_mask" wm_mask "operand_files" ;;
  (* gray matter mask *)
  connect_via preproc segment "probability_maps" pick_wm_1 gm_t1_to_native "in_file" ;;
  connect preproc inputNode "example_func" gm_t1_to_native "reference" ;;
  connect preproc inputNode "highres2example_func_mat" gm_t1_to_native "in_matrix_file" ;;
  connect preproc inputNode "example_func" gm_mni_to_native "ref_file" ;;
  connect preproc inputNode "stand2highres_warp" gm_mni_to_native "field_file" ;;
  connect preproc inputNode "PRIOR_GRAY" gm_mni_to_native "in_file" ;;
  connect preproc inputNode "highres2example_func_mat" gm_mni_to_native "postmat" ;;
  connect preproc gm_t1_to_native "out_file" overlap_gm_with_prior "in_file" ;;
  connect preproc gm_mni_to_native "out_file" overlap_gm_with_prior "operand_files" ;;
  connect preproc overlap_gm_with_prior "out_file" binarize_threshold_gm "in_file" ;;
  connect_via preproc inputnode_gm_threshold "gm_threshold" form_threshold_string
              binarize_threshold_gm "op_string" ;;
  connect preproc binarize_threshold_gm "out_file" gm_mask "in_file" ;;
  connect preproc inputNode "preprocessed_mask" gm_mask "operand_files" ;;
  connect preproc segment "probability_maps" outputNode "probability_maps" ;;
  connect preproc segment "mixeltype" outputNode "mixeltype" ;;
  connect preproc segment "partial_volume_files" outputNode "partial_volume_files" ;;
  connect preproc segment "partial_volume_map" outputNode "partial_volume_map" ;;
  connect preproc csf_t1_to_native "out_file" outputNode "csf_t12func" ;;
  connect preproc csf_mni_to_native "out_file" outputNode "csf_mni2func" ;;
  connect preproc overlap_csf_with_prior "out_file" outputNode "csf_combo" ;;
  connect preproc binarize_threshold_csf "out_file" outputNode "csf_bin" ;;
  connect preproc csf_mask "out_file" outputNode "csf_mask" ;;
  connect preproc inputNode "preprocessed_mask" outputNode "global_mask" ;;
  connect preproc wm_t1_to_native "out_file" outputNode "wm_t12func" ;;
  connect preproc wm_mni_to_native "out_file" outputNode "wm_mni2func" ;;
  connect preproc overlap_wm_with_prior "out_file" outputNode "wm_combo" ;;
  connect preproc binarize_threshold_wm "out_file" outputNode "wm_bin" ;;
  connect preproc wm_mask "out_file" outputNode "wm_mask" ;;
  connect preproc gm_t1_to_native "out_file" outputNode "gm_t12func" ;;
  connect preproc gm_mni_to_native "out_file" outputNode "gm_mni2func" ;;
  connect preproc overlap_gm_with_prior "out_file" outputNode "gm_combo" ;;
  connect preproc binarize_threshold_gm "out_file" outputNode "gm_bin" ;;
  connect preproc gm_mask "out_file" outputNode "gm_mask" ;;
  mret preproc.

End SegPreproc.

(** ** The finished graph, by node name *)

Module Graph.
Import Engine.

Record graph : Type := mk_graph {
  g_name : string;
  g_nodes : list node;
  g_edges : list (edge string)
}.

(** What a workflow object of the store denotes: its nodes looked up, its
    edges over the names of their end points. *)
Definition view (w : world) (q : wfref) : option graph :=
  wf ← workflows w !! q ;
  ns ← mapM (λ r, nodes w !! r) (wf_nodes wf) ;
  es ← mapM (λ e, s ← nodes w !! src e ; d ← nodes w !! dst e ;
                  Some (mk_edge (name s) (src_port e) (via e) (name d) (dst_port e)))
            (wf_edges wf) ;
  Some (mk_graph (wf_name wf) ns es).

(** A builder run in a fresh interpreter. *)
Definition build (b : M wfref) : option graph :=
  '(q, w) ← b empty_world ; view w q.

#[export] Instance interface_eq_dec : EqDecision interface.
Proof. solve_decision. Defined.
#[export] Instance transform_eq_dec : EqDecision transform.
Proof. solve_decision. Defined.
#[export] Instance edge_eq_dec `{EqDecision N} : EqDecision (edge N).
Proof. solve_decision. Defined.

Section queries.
Context (g : graph).

Definition node_names : list string := name <$> g_nodes g.

Definition get_node (n : string) : option node :=
  head (filter (λ nd, name nd = n) (g_nodes g)).

(** Edges into a node, edges into one of its ports, edges out of a node. *)
Definition in_edges (n : string) : list (edge string) :=
  filter (λ e, dst e = n) (g_edges g).
Definition port_writers (n p : string) : list (edge string) :=
  filter (λ e, dst e = n ∧ dst_port e = p) (g_edges g).
Definition out_edges (n : string) : list (edge string) :=
  filter (λ e, src e = n) (g_edges g).
Definition edges_between (a b : string) : list (edge string) :=
  filter (λ e, src e = a ∧ dst e = b) (g_edges g).

Definition succs (n : string) : list string := dst <$> out_edges n.

(** The nodes reached from [a] by following exactly [k] edges. *)
Fixpoint reach_in (k : nat) (a : string) : list string :=
  match k with
  | 0 => [a]
  | S k => reach_in k a ≫= succs
  end.

(** A walk of [k] edges from [a] to [b]. *)
Inductive walk : string → string → nat → Prop :=
  | walk_here a : walk a a 0
  | walk_edge a b k e :
      walk a (src e) k → e ∈ g_edges g → dst e = b → walk a b (S k).

(** [a] is upstream of [b]: some non-empty walk leads from [a] to [b]. *)
Definition upstream (a b : string) : Prop := ∃ k, walk a b (S k).

(** Search for such a walk among those no longer than the node count. *)
Definition upstreamb (a b : string) : bool :=
  bool_decide (Exists (λ k, b ∈ reach_in (S k) a) (seq 0 (length (g_nodes g)))).

(** Single-writer: no two edges end at the same port of the same node. *)
Definition single_writer : Prop :=
  NoDup ((λ e, (dst e, dst_port e)) <$> g_edges g).

(** No walk is longer than [d] edges; a graph with such a bound has no
    cycle. *)
Definition depth_bounded (d : nat) : Prop := ∀ a, reach_in (S d) a = [].
End queries.

End Graph.

(** ** The graphs the builders return *)

Module Built.
Import Engine Graph.

Definition no_graph : graph := mk_graph "" [] [].

(** The graph of [create_seg_preproc()] and of [create_sca(extraction_space)]
    in a fresh interpreter. *)
Definition seg_preproc_graph : graph :=
  default no_graph (build SegPreproc.create_seg_preproc).

Definition sca_graph (extraction_space : string) : graph :=
  default no_graph (build (Sca.create_sca extraction_space)).

End Built.

(** ** Shape of the two graphs *)

Module Shape.
Import Engine Graph.

(** A check for [single_writer] that computes. *)
Fixpoint no_repeat (l : list (string * string)) : bool :=
  match l with
  | [] => true
  | x :: l' => negb (bool_decide (x ∈ l')) && no_repeat l'
  end.

Definition single_writerb (g : graph) : bool :=
  no_repeat ((λ e, (dst e, dst_port e)) <$> g_edges g).

(** Every node from which an edge starts runs out of walks after [d]
    edges. *)
Definition depth_boundedb (g : graph) (d : nat) : bool :=
  forallb (λ e, bool_decide (reach_in g (S d) (src e) = [])) (g_edges g).

Inductive tissue : Type := CSF | GM | WM.

#[export] Instance tissue_eq_dec : EqDecision tissue.
Proof. solve_decision. Defined.

(** The port of [outputspec] that carries the final mask of a tissue. *)
Definition mask_port (t : tissue) : string :=
  match t with CSF => "csf_mask" | GM => "gm_mask" | WM => "wm_mask" end.

(** The channel of a tissue among the probability maps of the
    segmentation: 0 = CSF, 1 = GM, 2 = WM. *)
Definition channel (t : tissue) : nat :=
  match t with CSF => 0 | GM => 1 | WM => 2 end.

(** Modelled from the spec: [pick_wm_0], [pick_wm_1] and [pick_wm_2] are
    defined in the utilities of the [CPAC.seg_preproc] package, which are
    not among the sources.  By the specification they select a tissue's
    probability map by a fixed channel index of the segmentation output;
    the index is the one in the function's name. *)
Definition channel_index (f : transform) : option nat :=
  match f with
  | pick_wm_0 => Some 0
  | pick_wm_1 => Some 1
  | pick_wm_2 => Some 2
  | form_threshold_string | set_gauss => None
  end.

Definition is_segmentation (nd : node) : bool := bool_decide (iface nd = FAST).

(** Linear ([FLIRT]) and nonlinear ([ApplyWarp]) registration. *)
Definition is_registration (nd : node) : bool :=
  bool_decide (iface nd = FLIRT) || bool_decide (iface nd = ApplyWarp).

(** A node that runs a tool on images: neither a spec node nor the
    segmentation. *)
Definition is_processing (nd : node) : bool :=
  match iface nd with
  | IdentityInterface _ | FAST => false
  | _ => true
  end.

Section seg.
Context (g : graph).

(** The node whose output is exposed as the final mask of tissue [t]. *)
Definition final_mask_node (t : tissue) : option string :=
  match port_writers g "outputspec" (mask_port t) with
  | [e] => Some (src e)
  | _ => None
  end.

(** The nodes of kind [kind] that are upstream of node [m], or [m] itself. *)
Definition upstream_of (kind : node → bool) (m : string) : list node :=
  filter (λ nd, kind nd = true ∧
                (name nd = m ∨ upstreamb g (name nd) m = true)) (g_nodes g).

(** The branch of a tissue: the processing nodes its final mask depends on. *)
Definition branch (t : tissue) : list string :=
  match final_mask_node t with
  | Some m => name <$> upstream_of is_processing m
  | None => []
  end.

(** The edges that leave the probability maps of the segmentation through
    a channel selector. *)
Definition channel_edges : list (edge string) :=
  filter (λ e, src e = "segment" ∧ src_port e = "probability_maps" ∧
               is_Some (via e ≫= channel_index)) (g_edges g).

(** The channels consumed by the nodes [l]. *)
Definition channels_into (l : list string) : list nat :=
  omap (λ e, via e ≫= channel_index) (filter (λ e, dst e ∈ l) channel_edges).
End seg.

(** The nodes of a tissue's branch, under the names the builder gives
    them: linear registration, nonlinear registration, overlap, threshold,
    final mask. *)
Definition chain (t : tissue) : string * string * string * string * string :=
  match t with
  | CSF => ("csf_t1_to_native", "csf_mni_to_native", "overlap_csf_with_prior",
            "binarize_threshold_csf", "csf_mask")
  | GM => ("gm_t1_to_native", "gm_mni_to_native", "overlap_gm_with_prior",
           "binarize_threshold_gm", "gm_mask")
  | WM => ("wm_t1_to_native", "wm_mni_to_native", "overlap_wm_with_prior",
           "binarize_threshold_wm", "wm_mask")
  end.

(** A registration node whose input image is the seed list. *)
Definition is_seed_registration (g : graph) (nd : node) : bool :=
  bool_decide (iface nd = ApplyWarp) &&
  bool_decide (Exists (λ e, src e = "seed_list_input" ∧ src_port e = "seed_list")
                      (port_writers g (name nd) "in_file")).

Definition seed_registrations (g : graph) : list node :=
  filter (λ nd, is_seed_registration g nd = true) (g_nodes g).

End Shape.

(** ** What a mapped node produces *)

Module Expansion.
Import Engine Graph.

(** Modelled from the spec: the execution engine that expands a MapNode is
    an external collaborator of the builders and is not part of the
    repository.  The data model of the specification gives its meaning: a
    MapNode whose iterated inputs receive sequences of [n] values expands
    into [n] invocations and each of its outputs is a sequence of [n]
    values; all iterated inputs of one MapNode must receive sequences of
    equal length; an input or output spec node passes the value of a port
    through unchanged.  [port_len g given fuel n p] is the length of the
    sequence found on port [p] of node [n], where [given n p] is the length
    of the sequence the caller assigned to port [p] of the input node [n];
    it is [None] where the data model says nothing: behind a transform
    function, and at the outputs of a plain [Node]. *)
Section lengths.
Context (g : graph) (given : string → string → nat).

Definition all_equal (ls : list nat) : option nat :=
  match ls with
  | [] => None
  | l :: ls' => if forallb (Nat.eqb l) ls' then Some l else None
  end.

Fixpoint port_len (fuel : nat) (n p : string) : option nat :=
  match fuel with
  | 0 => None
  | S fuel =>
      let arriving (port : string) : option nat :=
        match port_writers g n port with
        | [e] => match via e with
                 | None => port_len fuel (src e) (src_port e)
                 | Some _ => None
                 end
        | _ => None
        end in
      nd ← get_node g n ;
      match iface nd, iterfield nd with
      | IdentityInterface _, _ =>
          match port_writers g n p with
          | [] => Some (given n p)
          | _ => arriving p
          end
      | _, Some iterated => mapM arriving iterated ≫= all_equal
      | _, None => None
      end
  end.

(** Port [p] of node [n] is wired to an iterated input of a MapNode. *)
Definition feeds_iterated (n p : string) : Prop :=
  ∃ e nd iterated,
    e ∈ g_edges g ∧ src e = n ∧ src_port e = p ∧
    get_node g (dst e) = Some nd ∧ iterfield nd = Some iterated ∧
    dst_port e ∈ iterated.

Definition feeds_iteratedb (n p : string) : bool :=
  existsb (λ e, bool_decide (src e = n) && bool_decide (src_port e = p) &&
                match get_node g (dst e) ≫= iterfield with
                | Some iterated => bool_decide (dst_port e ∈ iterated)
                | None => false
                end) (g_edges g).
End lengths.

(** The values a caller of [create_sca] assigns: a seed list of [N]
    elements, a list of [M] kernel widths, and sequences of [L] elements on
    the ports of [inputspec]. *)
Definition sca_given (N M L : nat) (n p : string) : nat :=
  if decide (n = "seed_list_input") then N
  else if decide (n = "fwhm_input") then M
  else L.

Definition smoothed_len (g : graph) (N M L : nat) : option nat :=
  port_len g (sca_given N M L) (S (length (g_nodes g))) "outputspec" "Z_FWHM".

End Expansion.

(** ** Builders run in a world that is not empty *)

Module Frame.
Import Engine Graph.

Definition shift_wf (d : nat) (wf : workflow) : workflow :=
  mk_workflow (wf_name wf) (Nat.add d <$> wf_nodes wf)
              (edge_map (Nat.add d) <$> wf_edges wf).

(** [w'] is [w] laid out behind the objects [ns0] and [wfs0]. *)
Definition behind (ns0 : list node) (wfs0 : list workflow) (w w' : world) : Prop :=
  nodes w' = ns0 ++ nodes w ∧
  workflows w' = wfs0 ++ (shift_wf (length ns0) <$> workflows w).

(** Two computations that do the same up to this layout, given a relation
    between their results. *)
Definition similar {A} (ns0 : list node) (wfs0 : list workflow)
    (R : A → A → Prop) (c c' : M A) : Prop :=
  ∀ w w', behind ns0 wfs0 w w' →
    match c w, c' w' with
    | Some (a, w1), Some (a', w1') => R a a' ∧ behind ns0 wfs0 w1 w1'
    | None, None => True
    | _, _ => False
    end.

Definition moved (d : nat) (r r' : nat) : Prop := r' = d + r.

(** [w'] still holds every object of [w], unchanged. *)
Definition extends (w w' : world) : Prop :=
  (∃ ns, nodes w' = nodes w ++ ns) ∧ (∃ wfs, workflows w' = workflows w ++ wfs).

(** Two workflow objects of one store are isomorphic: a map of references
    that is one-to-one carries the nodes and edges of the first onto those
    of the second (so the node and edge counts agree), and each node onto
    a node with the same description. *)
Definition isomorphic (w : world) (q1 q2 : wfref) : Prop :=
  ∃ wf1 wf2 (f : noderef → noderef),
    workflows w !! q1 = Some wf1 ∧ workflows w !! q2 = Some wf2 ∧
    wf_name wf2 = wf_name wf1 ∧
    length (wf_nodes wf2) = length (wf_nodes wf1) ∧
    length (wf_edges wf2) = length (wf_edges wf1) ∧
    wf_nodes wf2 = f <$> wf_nodes wf1 ∧
    wf_edges wf2 = edge_map f <$> wf_edges wf1 ∧
    (∀ r r', f r = f r' → r = r') ∧
    (∀ r, r ∈ wf_nodes wf1 → is_Some (nodes w !! r) ∧ nodes w !! f r = nodes w !! r).

(** The two workflow objects have no node object in common. *)
Definition separate (w : world) (q1 q2 : wfref) : Prop :=
  ∀ wf1 wf2 r, workflows w !! q1 = Some wf1 → workflows w !! q2 = Some wf2 →
    r ∈ wf_nodes wf1 → r ∉ wf_nodes wf2.

(** Calling [b] twice in a row, from any store: both calls return, they only
    add objects to the store, and the two workflows are isomorphic,
    share no node and denote the graph that [b] builds in a fresh
    interpreter. *)
Definition repeatable (b : M wfref) : Prop :=
  ∀ w0, ∃ q1 w1 q2 w2 g,
    b w0 = Some (q1, w1) ∧ b w1 = Some (q2, w2) ∧
    extends w0 w1 ∧ extends w1 w2 ∧
    isomorphic w2 q1 q2 ∧ separate w2 q1 q2 ∧
    build b = Some g ∧ view w1 q1 = Some g ∧ view w2 q1 = Some g ∧ view w2 q2 = Some g.

End Frame.

(** ** Python strings *)

Module Py.

(** The characters [str.strip()] removes and the C function [isspace]
    accepts: space, tab, newline, vertical tab, form feed, carriage return. *)
Definition whitespace (a : ascii) : bool :=
  let n := nat_of_ascii a in
  bool_decide (n = 32 ∨ (9 ≤ n ∧ n ≤ 13))%nat.

Fixpoint lstrip (s : string) : string :=
  match s with
  | String a s' => if whitespace a then lstrip s' else s
  | EmptyString => EmptyString
  end.

Fixpoint rstrip (s : string) : string :=
  match s with
  | EmptyString => EmptyString
  | String a s' =>
      match rstrip s' with
      | EmptyString => if whitespace a then EmptyString else String a EmptyString
      | r => String a r
      end
  end.

(** [s.strip()] *)
Definition strip (s : string) : string := rstrip (lstrip s).

(** [s.split(sep)] for a separator of one character. *)
Fixpoint split (sep : ascii) (s : string) : list string :=
  match s with
  | EmptyString => [EmptyString]
  | String a s' =>
      if Ascii.eqb a sep then EmptyString :: split sep s'
      else match split sep s' with
           | x :: xs => String a x :: xs
           | [] => [String a EmptyString]
           end
  end.

(** [c in s] for a single character [c]. *)
Fixpoint contains (c : ascii) (s : string) : bool :=
  match s with
  | EmptyString => false
  | String a s' => Ascii.eqb a c || contains c s'
  end.

(** The one-character strings a string yields when it is iterated. *)
Fixpoint chars (s : string) : list string :=
  match s with
  | EmptyString => []
  | String a s' => String a EmptyString :: chars s'
  end.

Fixpoint last_char (s : string) : option ascii :=
  match s with
  | EmptyString => None
  | String a EmptyString => Some a
  | String _ s' => last_char s'
  end.

Definition comma : ascii := ascii_of_nat 44.
Definition slash : ascii := ascii_of_nat 47.
Definition newline : ascii := ascii_of_nat 10.
Definition nl : string := String newline EmptyString.

(** The exceptions; all but [KeyboardInterrupt] derive from [Exception]. *)
Inductive exn : Type := ValueError | TypeError | SyntaxError | KeyboardInterrupt.

Definition is_Exception (e : exn) : bool :=
  match e with
  | ValueError | TypeError | SyntaxError => true
  | KeyboardInterrupt => false
  end.

Inductive outcome (A : Type) : Type :=
  | Return (a : A)
  | Raise (e : exn).
Arguments Return {A}.
Arguments Raise {A}.

(** The value of an outcome, where there is one. *)
Definition returned {A} (r : outcome A) : option A :=
  match r with
  | Return a => Some a
  | Raise _ => None
  end.

(** Statements over a state [S] that return or raise. *)
Definition St (S A : Type) : Type := S → outcome A * S.

#[export] Instance St_ret {S} : MRet (St S) := λ A a s, (Return a, s).
#[export] Instance St_bind {S} : MBind (St S) := λ A B f m s,
  match m s with
  | (Return a, s') => f a s'
  | (Raise e, s') => (Raise e, s')
  end.

Definition raise {S A} (e : exn) : St S A := λ s, (Raise e, s).

(** [if c: body] *)
Definition when {S} (c : bool) (body : St S unit) : St S unit :=
  if c then body else mret tt.

(** [for x in l: body(x)] *)
Fixpoint for_each {S A} (l : list A) (body : A → St S unit) : St S unit :=
  match l with
  | [] => mret tt
  | x :: l' => body x ;; for_each l' body
  end.

(** [[f(x) for x in l]] *)
Fixpoint comprehension {S A B} (f : A → St S B) (l : list A) : St S (list B) :=
  match l with
  | [] => mret []
  | x :: l' => y ← f x ; ys ← comprehension f l' ; mret (y :: ys)
  end.

(** [try: body  except Exception: handler] *)
Definition try_except_Exception {S A} (body handler : St S A) : St S A := λ s,
  match body s with
  | (Raise e, s') => if is_Exception e then handler s' else (Raise e, s')
  | r => r
  end.

(** [c] checks [P]: it returns and leaves the state alone when [P] holds,
    and raises an [Exception] when it does not. *)
Definition decides {S} (P : Prop) (c : St S unit) : Prop :=
  ∀ s, (P ∧ c s = (Return tt, s)) ∨
       (¬ P ∧ ∃ e s', c s = (Raise e, s') ∧ is_Exception e = true).

End Py.

(** ** The FSL model configuration window:
       [CPAC/GUI/interface/utils/modelconfig_window.py] *)

Module ModelConfig.
Import Py.

(** One value of [config_map]: the list [[win, value, validation]] that
    [save] stores under the name of a control.  [win] identifies the
    control. *)
Record entry : Type := mk_entry {
  win : nat;
  value : string;
  validation : bool
}.

(** What the user has been shown: the message boxes, each with the control
    that was marked and given the focus. *)
Definition gui : Type := list (nat * string).

Section validate.
(** [os.path.exists] and the builtin [int] on a string ([None] where it
    raises [ValueError]). *)
Context (exists_path : string → bool) (py_int : string → option Z).

(** [display(win, msg)] always raises. *)
Definition display {A} (win : nat) (msg : string) : St gui A := λ shown,
  (Raise ValueError, shown ++ [(win, msg)]).

(** [config_map.get(key)[i]]: subscripting [None] raises [TypeError]. *)
Definition get_item {A} (proj : entry → A) (o : option entry) : St gui A :=
  match o with
  | Some e => mret (proj e)
  | None => raise TypeError
  end.

Definition int (v : string) : St gui Z :=
  match py_int v with
  | Some z => mret z
  | None => raise ValueError
  end.

(** The body of the loop over [config_map.iteritems()]. *)
Definition check_field (config_map : gmap string entry) (columns : list string)
    (key : string) (val : entry) : St gui unit :=
  when (bool_decide (key ≠ "groupingVariable") &&
        bool_decide (String.length (value val) = 0))
    (display (win val) (key +:+ " field is empty!")) ;;
  when (contains slash (value val) && validation val)
    (when (negb (exists_path (value val)))
       (display (win val)
          (key +:+ " field contains incorrect path. Please enter correct path!"))) ;;
  when (bool_decide (key = "categoricalVsDirectional" ∨ key = "deMean"))
    (value ← comprehension int (split comma (value val)) ;
     for_each value (λ v,
       when (bool_decide (v ∉ [1; 0]%Z))
         (display (win val) "Invalid Entry. Only 1 and 0 entry allowed")) ;;
     when (bool_decide (length value ≠ length columns))
       (display (win val)
          ("Number of values in " +:+ key +:+
           " do not match specified columns in the model"))) ;;
  when (bool_decide (key = "groupingVariable"))
    (separately ← get_item value (config_map !! "modelGroupVariancesSeparately") ;
     when (bool_decide (separately = "On"))
       (when (bool_decide (String.length (value val) = 0))
          (display (win val) (key +:+ " field is empty!")) ;;
        when (bool_decide (value val ∉ columns))
          (display (win val)
             "Grouping variable/column not a valid column in the model. Please verify the name"))).

(** The [try] block.  The order in which a dictionary is iterated is not
    specified; here it is the order of [map_to_list]. *)
Definition validate_body (config_map : gmap string entry) : St gui Z :=
  c ← get_item value (config_map !! "columnsInModel") ;
  let columns := strip <$> split comma c in
  match columns with
  | [] =>
      w ← get_item win (config_map !! "columnsInModel") ;
      display (A := unit) w "No columns specified for the model" ;;
      mret (-1)%Z
  | _ =>
      for_each (map_to_list config_map)
               (λ kv, check_field config_map columns kv.1 kv.2) ;;
      mret 1%Z
  end.

Definition validate (config_map : gmap string entry) : St gui Z :=
  try_except_Exception (validate_body config_map) (mret (-1)%Z).

(** The checks, as the claim lists them. *)
Definition field_passes (columns : list string) (separately : option string)
    (key : string) (val : entry) : Prop :=
  (key ≠ "groupingVariable" → value val ≠ "") ∧
  (contains slash (value val) = true → validation val = true →
     exists_path (value val) = true) ∧
  (key = "categoricalVsDirectional" ∨ key = "deMean" →
     ∃ ints, mapM py_int (split comma (value val)) = Some ints ∧
             Forall (λ v, v = 1 ∨ v = 0)%Z ints ∧
             length ints = length columns) ∧
  (key = "groupingVariable" →
     ∃ m, separately = Some m ∧
          (m = "On" → value val ≠ "" ∧ value val ∈ columns)).

Definition every_check_passes (config_map : gmap string entry) : Prop :=
  ∃ c, config_map !! "columnsInModel" = Some c ∧
       map_Forall (field_passes (strip <$> split comma (value c))
                                (value <$> config_map !! "modelGroupVariancesSeparately"))
                  config_map.
End validate.

(** One element of [config_list]: the tuple [(name, value, dtype, help)]. *)
Record item : Type := mk_item {
  item_name : string;
  item_value : string;
  item_dtype : Z;
  item_help : string
}.

Section save.
(** [substitution_map] of the GUI constants, [ast.literal_eval] (the
    value it returns or the exception it raises: [SyntaxError] for a text
    that does not parse, [ValueError] for one that is no literal,
    [TypeError] for a dictionary key that cannot be one) and [str] of an
    object that is not a string. *)
Context (substitution_map : gmap string pyobj)
        (literal_eval : string → outcome pyobj)
        (py_repr : pyobj → string).

Definition literal (s : string) : St string pyobj := λ f,
  (literal_eval s, f).

(** The elements an object yields when it is iterated. *)
Definition py_iter (o : pyobj) : option (list pyobj) :=
  match o with
  | PyList l | PyTuple l => Some l
  | PyStr s => Some (PyStr <$> chars s)
  | PyDict items => Some (fst <$> items)
  | PyNone | PyBool _ | PyInt _ | PyFloat _ => None
  end.

Definition py_str (o : pyobj) : string :=
  match o with
  | PyStr s => s
  | _ => py_repr o
  end.

(** After this object a [print] statement owes no space: a string that
    ends in a whitespace character other than a space. *)
Definition ends_line (o : pyobj) : bool :=
  match o with
  | PyStr s =>
      match last_char s with
      | Some a => whitespace a && negb (Ascii.eqb a " ")
      | None => false
      end
  | _ => false
  end.

Fixpoint print_items (softspace : bool) (objs : list pyobj) : string :=
  match objs with
  | [] => nl
  | o :: objs' =>
      (if softspace then " " else "") +:+ py_str o +:+
      print_items (negb (ends_line o)) objs'
  end.

(** [print >> f, o1, o2, ...] on a file whose softspace flag is clear, as
    it is after every complete [print] statement. *)
Definition print (objs : list pyobj) : St string unit := λ f,
  (Return tt, f +:+ print_items false objs).

(** The value written for an item, by its type code. *)
Definition written_value (it : item) : St string pyobj :=
  if decide (item_dtype it = 2)%Z then
    match default PyNone (substitution_map !! item_value it) with
    | PyNone => literal (item_value it)
    | v => mret v
    end
  else if decide (item_dtype it = 5)%Z then
    o ← literal (item_value it) ;
    match py_iter o with
    | Some l => mret (PyList l)
    | None => raise TypeError
    end
  else if decide (item_dtype it = 4)%Z then
    mret (PyList ((λ v, PyStr (strip v)) <$> split comma (item_value it)))
  else
    mret (PyStr (item_value it)).

(** The body of the loop of [save] over [config_list]. *)
Definition write_item (it : item) : St string unit :=
  value ← written_value it ;
  for_each (split newline (item_help it))
           (λ lines, print [PyStr "#"; PyStr lines]) ;;
  print [PyStr (item_name it); PyStr ": "; value; PyStr nl].

Definition write_config (config_list : list item) : St string unit :=
  for_each config_list write_item.

(** The format as the claim words it. *)
Definition claimed_value (it : item) : option pyobj :=
  if decide (item_dtype it = 2)%Z then
    match substitution_map !! item_value it with
    | Some alias => Some alias
    | None => returned (literal_eval (item_value it))
    end
  else if decide (item_dtype it = 5)%Z then
    PyList <$> (returned (literal_eval (item_value it)) ≫= py_iter)
  else if decide (item_dtype it = 4)%Z then
    Some (PyList ((λ v, PyStr (strip v)) <$> split comma (item_value it)))
  else
    Some (PyStr (item_value it)).

Fixpoint join (l : list string) : string :=
  match l with
  | [] => ""
  | x :: l' => x +:+ join l'
  end.

Definition claimed_text (it : item) (v : pyobj) : string :=
  join ((λ line, "# " +:+ line +:+ nl) <$> split newline (item_help it)) +:+
  item_name it +:+ " :  " +:+ py_str v +:+ " " +:+ nl +:+ nl.

(** A text that does not end in a tab, a newline or the like. *)
Definition tidy (s : string) : Prop := ends_line (PyStr s) = false.

(** An item the format speaks about: its value evaluates, and neither
    its name nor the text of its value ends in such a character. *)
Definition well_formed (it : item) : Prop :=
  tidy (item_name it) ∧
  ∃ v, claimed_value it = Some v ∧ ends_line v = false.

Definition claimed_file (config_list : list item) : string :=
  join ((λ it, default "" (claimed_text it <$> claimed_value it)) <$> config_list).
End save.

(** *** A small configuration, to run the two functions on *)

Definition sample_substitution_map : gmap string pyobj :=
  {[ "On" := PyInt 1; "Off" := PyInt 0 ]}.

(** [ast.literal_eval] on the texts of the samples: a tuple, two numbers,
    the empty text, which does not parse, and a bare name, which is no
    literal.  No other text occurs below. *)
Definition sample_literal_eval (s : string) : outcome pyobj :=
  if decide (s = "1,0") then Return (PyTuple [PyInt 1; PyInt 0])
  else if decide (s = "3") then Return (PyInt 3)
  else if decide (s = "1") then Return (PyInt 1)
  else if decide (s = "") then Raise SyntaxError
  else Raise ValueError.

(** [repr] for integers, for strings that need no escape and for lists and
    tuples of these. *)
Fixpoint sample_repr (o : pyobj) : string :=
  let commas := fix commas (l : list pyobj) : string :=
    match l with
    | [] => ""
    | [x] => sample_repr x
    | x :: l' => sample_repr x +:+ ", " +:+ commas l'
    end in
  match o with
  | PyNone => "None"
  | PyBool b => if b then "True" else "False"
  | PyInt z => pretty z
  | PyFloat literal => literal
  | PyStr s => "'" +:+ s +:+ "'"
  | PyList l => "[" +:+ commas l +:+ "]"
  | PyTuple l => "(" +:+ commas l +:+ ")"
  | PyDict _ => "{...}"
  end.

Definition sample_config_list : list item :=
  [ mk_item "modelGroupVariancesSeparately" "On" 2
            ("Specify whether FSL should model the variance." +:+ nl +:+ nl +:+
             "If enabled, specify a grouping variable.") ;
    mk_item "deMean" "1,0" 5 "Specify whether to demean each of the EVs." ;
    mk_item "columnsInModel" "age, sex" 4 "EVs to include." ;
    mk_item "modelName" "model_1" 0 "Specify a name for the new model." ].

Definition sample_file : string :=
  "# Specify whether FSL should model the variance." +:+ nl +:+
  "# " +:+ nl +:+
  "# If enabled, specify a grouping variable." +:+ nl +:+
  "modelGroupVariancesSeparately :  1 " +:+ nl +:+ nl +:+
  "# Specify whether to demean each of the EVs." +:+ nl +:+
  "deMean :  [1, 0] " +:+ nl +:+ nl +:+
  "# EVs to include." +:+ nl +:+
  "columnsInModel :  ['age', 'sex'] " +:+ nl +:+ nl +:+
  "# Specify a name for the new model." +:+ nl +:+
  "modelName :  model_1 " +:+ nl +:+ nl.

Definition sample_config_map : gmap string entry :=
  {[ "columnsInModel" := mk_entry 3 "age, sex" true;
     "deMean" := mk_entry 5 "1,0" true;
     "modelGroupVariancesSeparately" := mk_entry 7 "On" true;
     "groupingVariable" := mk_entry 8 "sex" true;
     "modelName" := mk_entry 9 "model_1" true ]}.



(** A reader of one-digit numbers, enough for the sample. *)
Definition sample_int (s : string) : option Z :=
  match strip s with
  | String a EmptyString =>
      let n := nat_of_ascii a in
      if bool_decide (48 ≤ n ∧ n ≤ 57)%nat then Some (Z.of_nat (n - 48)) else None
  | _ => None
  end.

End ModelConfig.

(** ** Checks on workflows and graphs *)

Module Audit.
Import Engine Graph.

(** A graph in good order: node names are distinct and every edge runs
    between nodes of the graph. *)
Definition graph_ok (g : graph) : Prop :=
  NoDup (node_names g) ∧
  Forall (λ e, src e ∈ node_names g ∧ dst e ∈ node_names g) (g_edges g).

(** The iterated input ports of the MapNodes of a graph. *)
Definition iterated_ports (g : graph) : list (string * string) :=
  nd ← g_nodes g ; p ← default [] (iterfield nd) ; [(name nd, p)].

(** The fields a spec node declares. *)
Definition fields_of (g : graph) (n : string) : list string :=
  match iface <$> get_node g n with
  | Some (IdentityInterface fields) => fields
  | _ => []
  end.

(** The declared fields of a spec node no edge starts from, and those no
    edge ends at. *)
Definition unread (g : graph) (n : string) : list string :=
  filter (λ p, filter (λ e, src e = n ∧ src_port e = p) (g_edges g) = [])
         (fields_of g n).

Definition unwritten (g : graph) (n : string) : list string :=
  filter (λ p, port_writers g n p = []) (fields_of g n).

(** The nodes of a graph with a given interface. *)
Definition with_iface (g : graph) (i : interface) : list node :=
  filter (λ nd, iface nd = i) (g_nodes g).

End Audit.

(** ** More of the configuration window *)

Module Form.
Import Py ModelConfig.

Section validate_in.
Context (exists_path : string → bool) (py_int : string → option Z).

(** [validate] with the order in which [config_map.iteritems()] yields the
    items made explicit. *)
Definition validate_body_in (order : list (string * entry))
    (config_map : gmap string entry) : St gui Z :=
  c ← get_item value (config_map !! "columnsInModel") ;
  let columns := strip <$> split comma c in
  match columns with
  | [] =>
      w ← get_item win (config_map !! "columnsInModel") ;
      display (A := unit) w "No columns specified for the model" ;;
      mret (-1)%Z
  | _ =>
      for_each order (λ kv, check_field exists_path py_int config_map columns kv.1 kv.2) ;;
      mret 1%Z
  end.

Definition validate_in (order : list (string * entry))
    (config_map : gmap string entry) : St gui Z :=
  try_except_Exception (validate_body_in order config_map) (mret (-1)%Z).
End validate_in.

(** The texts [validate] passes to [display] from inside its loop. *)
Definition check_message (msg : string) : Prop :=
  ∃ key,
    msg = key +:+ " field is empty!" ∨
    msg = key +:+ " field contains incorrect path. Please enter correct path!" ∨
    msg = "Invalid Entry. Only 1 and 0 entry allowed" ∨
    msg = "Number of values in " +:+ key +:+
          " do not match specified columns in the model" ∨
    msg = "Grouping variable/column not a valid column in the model. Please verify the name".

(** [c] checks [P] as [decides] says, and where it raises, the state before
    and after satisfy [Q]. *)
Definition checks {S} (P : Prop) (Q : S → S → Prop) (c : St S unit) : Prop :=
  ∀ s, (P ∧ c s = (Return tt, s)) ∨
       (¬ P ∧ ∃ e s', c s = (Raise e, s') ∧ is_Exception e = true ∧ Q s s').

(** The list fields are numbers: every comma-separated piece of the two
    list fields is accepted by [int]. *)
Definition numbers_parse (py_int : string → option Z)
    (key : string) (val : entry) : Prop :=
  key = "categoricalVsDirectional" ∨ key = "deMean" →
  is_Some (mapM py_int (split comma (value val))).

(** What a failing [validate] may have done to the window: nothing or one
    more message box of the loop, and exactly one more. *)
Definition quietly (s s' : gui) : Prop :=
  s' = s ∨ ∃ w msg, s' = s ++ [(w, msg)] ∧ check_message msg.

Definition loudly (s s' : gui) : Prop :=
  ∃ w msg, s' = s ++ [(w, msg)] ∧ check_message msg.

(** A field whose checks raise only through [display]: its numbers parse
    and the key its check looks up is there.  Where [Q] holds of every
    state and itself nothing is asked. *)
Definition speaks (py_int : string → option Z) (Q : gui → gui → Prop)
    (config_map : gmap string entry) (key : string) (val : entry) : Prop :=
  (∀ s, Q s s) ∨
  (numbers_parse py_int key val ∧
   (key = "groupingVariable" →
    is_Some (config_map !! "modelGroupVariancesSeparately"))).

(** [sep.join(l)] *)
Fixpoint intercalate (sep : string) (l : list string) : string :=
  match l with
  | [] => ""
  | [x] => x
  | x :: l' => x +:+ sep +:+ intercalate sep l'
  end.

Fixpoint drop_empty (l : list string) : list string :=
  match l with
  | "" :: l' => drop_empty l'
  | _ => l
  end.

Section load.
(** [substitution_map], [str] of an object that is not a string, and the
    equality [==] of two hashable objects. *)
Context (substitution_map : gmap string pyobj)
        (py_repr : pyobj → string)
        (py_eqb : pyobj → pyobj → bool).

(** An object that can be the key of a dictionary. *)
Fixpoint hashable (o : pyobj) : bool :=
  match o with
  | PyList _ | PyDict _ => false
  | PyTuple l =>
      (fix all (l : list pyobj) : bool :=
         match l with
         | [] => true
         | x :: l' => hashable x && all l'
         end) l
  | PyNone | PyBool _ | PyInt _ | PyFloat _ | PyStr _ => true
  end.

(** The pairs [(v, k) for k, v in substitution_map.iteritems()]. *)
Definition s_map_items : list (pyobj * string) :=
  (λ kv, (kv.2, kv.1)) <$> map_to_list substitution_map.

(** [dict(pairs).get(key)]: of the pairs with an equal key the last one
    counts. *)
Definition dict_get (pairs : list (pyobj * string)) (key : pyobj) : option string :=
  snd <$> head (filter (λ kv, py_eqb kv.1 key = true) (reverse pairs)).

(** The loop of [load] over the elements of a list value: [val] starts as
    [None]; an element is appended behind a comma when [val] is true, that
    is a string that is not empty, and replaces [val] otherwise. *)
Definition join_step (val : option string) (v : pyobj) : option string :=
  match val with
  | Some s =>
      if bool_decide (s ≠ "") then Some (s +:+ "," +:+ py_str py_repr v)
      else Some (py_str py_repr v)
  | None => Some (py_str py_repr v)
  end.

Definition join_values (value : list pyobj) : option string :=
  foldl join_step None value.

(** [str(val)] for the [val] of that loop. *)
Definition str_val (val : option string) : string :=
  match val with
  | Some s => s
  | None => py_str py_repr PyNone
  end.

(** The text [load] puts into a control for the value found in the file. *)
Definition loaded_text (value : pyobj) : St (gmap string string) string :=
  match value with
  | PyList l => mret (str_val (join_values l))
  | _ =>
      if hashable value then
        match dict_get s_map_items value with
        | Some label => mret label
        | None => mret (py_str py_repr value)
        end
      else raise TypeError
  end.



End load.

(** Equality of the sample's aliases. *)
Definition sample_eqb (a b : pyobj) : bool :=
  match a, b with
  | PyInt x, PyInt y => bool_decide (x = y)
  | PyStr x, PyStr y => bool_decide (x = y)
  | PyNone, PyNone => true
  | _, _ => false
  end.

End Form.

(** * Properties of the two builders *)

Module Builders.
Import Engine Graph Built Shape Expansion Frame SegPreproc Sca.

(** ** A builder does the same behind any store *)

Section frame.
Context (ns0 : list node) (wfs0 : list workflow).
Local Abbreviation d := (length ns0).
Local Abbreviation dq := (length wfs0).

Lemma similar_ret {A} (R : A → A → Prop) a a' :
  R a a' → similar ns0 wfs0 R (mret a) (mret a').
Proof. intros HR w w' Hb. simpl. unfold mret, M_ret. auto. Qed.

Lemma similar_bind {A B} (R : A → A → Prop) (S : B → B → Prop)
    (c c' : M A) (k k' : A → M B) :
  similar ns0 wfs0 R c c' →
  (∀ a a', R a a' → similar ns0 wfs0 S (k a) (k' a')) →
  similar ns0 wfs0 S (c ≫= k) (c' ≫= k').
Proof.
  intros Hc Hk w w' Hb. specialize (Hc w w' Hb).
  unfold mbind, M_bind.
  destruct (c w) as [[a w1]|], (c' w') as [[a' w1']|]; try done.
  destruct Hc as [HR Hb1]. apply (Hk a a' HR w1 w1' Hb1).
Qed.

Lemma similar_alloc_node nd :
  similar ns0 wfs0 (moved d) (alloc_node nd) (alloc_node nd).
Proof.
  intros w w' [Hn Hw]. unfold alloc_node. split.
  - unfold moved. rewrite Hn, length_app. done.
  - split; simpl; [by rewrite Hn, app_assoc | done].
Qed.

Lemma similar_Workflow nm :
  similar ns0 wfs0 (moved dq) (Workflow nm) (Workflow nm).
Proof.
  intros w w' [Hn Hw]. unfold Workflow. split.
  - unfold moved. rewrite Hw, length_app, length_fmap. done.
  - split; simpl; [done|]. rewrite Hw, fmap_app, app_assoc. done.
Qed.

Lemma similar_set_input r r' field value :
  moved d r r' →
  similar ns0 wfs0 eq (set_input r field value) (set_input r' field value).
Proof.
  intros -> w w' [Hn Hw]. unfold set_input.
  rewrite Hn, lookup_app_r by lia.
  replace (d + r - d) with r by lia.
  destruct (nodes w !! r) as [nd|] eqn:E; rewrite ?E; simpl; [|done].
  split; [done|]. split; simpl; [|done].
  rewrite insert_app_r_alt by lia. do 2 f_equal. lia.
Qed.

Lemma similar_clone r r' nm :
  moved d r r' → similar ns0 wfs0 (moved d) (clone r nm) (clone r' nm).
Proof.
  intros -> w w' Hb. unfold clone.
  destruct Hb as [Hn Hw].
  rewrite Hn, lookup_app_r by lia.
  replace (d + r - d) with r by lia.
  destruct (nodes w !! r) as [nd|] eqn:E; rewrite ?E; simpl; [|done].
  apply similar_alloc_node. by split.
Qed.

Lemma add_node_shift r l :
  add_node (d + r) (Nat.add d <$> l) = Nat.add d <$> add_node r l.
Proof.
  unfold add_node. destruct (decide (r ∈ l)) as [Hin|Hin].
  - rewrite decide_True; [done|]. by apply list_elem_of_fmap_2.
  - rewrite decide_False.
    + by rewrite fmap_app.
    + intros (x & Hx & Hin')%list_elem_of_fmap. apply Hin.
      by replace r with x by lia.
Qed.

Lemma similar_record_edge q q' e :
  moved dq q q' →
  similar ns0 wfs0 eq (record_edge q e) (record_edge q' (edge_map (Nat.add d) e)).
Proof.
  intros -> w w' [Hn Hw]. unfold record_edge.
  rewrite Hw, lookup_app_r by lia.
  replace (dq + q - dq) with q by lia.
  rewrite list_lookup_fmap.
  destruct (workflows w !! q) as [wf|] eqn:E; rewrite ?E; simpl; [|done].
  split; [done|]. split; simpl; [done|].
  rewrite insert_app_r_alt by lia.
  replace (dq + q - dq) with q by lia.
  f_equal. rewrite list_fmap_insert. f_equal.
  unfold add_connection, shift_wf; simpl.
  rewrite !add_node_shift, fmap_app. done.
Qed.

Lemma similar_connect q q' s s' sp t t' tp :
  moved dq q q' → moved d s s' → moved d t t' →
  similar ns0 wfs0 eq (connect q s sp t tp) (connect q' s' sp t' tp).
Proof. intros Hq -> ->. by apply (similar_record_edge _ _ (mk_edge s sp None t tp)). Qed.

Lemma similar_connect_via q q' s s' sp f t t' tp :
  moved dq q q' → moved d s s' → moved d t t' →
  similar ns0 wfs0 eq (connect_via q s sp f t tp) (connect_via q' s' sp f t' tp).
Proof. intros Hq -> ->. by apply (similar_record_edge _ _ (mk_edge s sp (Some f) t tp)). Qed.
End frame.

Ltac similar_tac :=
  lazymatch goal with
  | |- similar _ _ _ (mbind _ _) _ =>
      eapply similar_bind; [ similar_tac | intros ? ? ?; similar_tac ]
  | |- similar _ _ _ (mret _) _ => apply similar_ret; assumption
  | |- similar _ _ _ (Workflow _) _ => apply similar_Workflow
  | |- similar _ _ _ (alloc_node _) _ => apply similar_alloc_node
  | |- similar _ _ _ (set_input _ _ _) _ => apply similar_set_input; assumption
  | |- similar _ _ _ (clone _ _) _ => apply similar_clone; assumption
  | |- similar _ _ _ (connect _ _ _ _ _) _ => apply similar_connect; assumption
  | |- similar _ _ _ (connect_via _ _ _ _ _ _) _ => apply similar_connect_via; assumption
  end.


Lemma view_behind ns0 wfs0 w w' q :
  behind ns0 wfs0 w w' → view w' (length wfs0 + q) = view w q.
Proof.
  intros [Hn Hw]. unfold view.
  rewrite Hw, lookup_app_r by lia.
  replace (length wfs0 + q - length wfs0) with q by lia.
  rewrite list_lookup_fmap.
  destruct (workflows w !! q) as [wf|]; [|done]. cbn.
  assert (Hl : ∀ r, nodes w' !! (length ns0 + r) = nodes w !! r).
  { intros r. rewrite Hn, lookup_app_r by lia. f_equal. lia. }
  assert (Hns : mapM (λ r, nodes w' !! r) (Nat.add (length ns0) <$> wf_nodes wf)
                = mapM (λ r, nodes w !! r) (wf_nodes wf)).
  { induction (wf_nodes wf) as [|r rs IH]; [done|]. cbn. by rewrite IH, Hl. }
  rewrite Hns. destruct (mapM _ (wf_nodes wf)); [|done]. cbn.
  f_equal.
  induction (wf_edges wf) as [|e es IH]; [done|]. cbn.
  rewrite !Hl. by rewrite IH.
Qed.

Lemma view_extends w w' q g :
  extends w w' → view w q = Some g → view w' q = Some g.
Proof.
  intros [[ns Hn] [wfs Hw]] Hv. unfold view in *.
  destruct (workflows w !! q) as [wf|] eqn:Eq; [|done].
  rewrite Hw, (lookup_app_l_Some _ _ _ _ Eq). cbn in *.
  assert (Hl : ∀ r nd, nodes w !! r = Some nd → nodes w' !! r = Some nd).
  { intros r nd Hr. rewrite Hn. by apply lookup_app_l_Some. }
  destruct (mapM _ (wf_nodes wf)) as [nds|] eqn:Ens; [|done]. cbn in Hv.
  destruct (mapM _ (wf_edges wf)) as [es|] eqn:Ees; [|done]. cbn in Hv.
  assert (mapM (λ r, nodes w' !! r) (wf_nodes wf) = Some nds) as ->.
  { apply mapM_Some in Ens. apply mapM_Some.
    eapply Forall2_impl; [exact Ens|]. intros r nd. apply Hl. }
  cbn.
  match goal with |- (?m ≫= _) = _ => assert (m = Some es) as -> end; [|done].
  apply mapM_Some in Ees. apply mapM_Some.
  eapply Forall2_impl; [exact Ees|]. intros e e' He. cbn in *.
  destruct (nodes w !! src e) as [s0|] eqn:Es; [|done].
  destruct (nodes w !! dst e) as [d0|] eqn:Ed; [|done].
  by rewrite (Hl _ _ Es), (Hl _ _ Ed).
Qed.

Lemma view_nodes_valid w q g wf r :
  view w q = Some g → workflows w !! q = Some wf → r ∈ wf_nodes wf →
  r < length (nodes w).
Proof.
  unfold view. intros Hv Hq Hr. rewrite Hq in Hv. cbn in Hv.
  destruct (mapM _ (wf_nodes wf)) as [nds|] eqn:Ens; [|done].
  apply mapM_Some in Ens.
  apply list_elem_of_lookup in Hr as [i Hi].
  destruct (Forall2_lookup_l _ _ _ _ _ Ens Hi) as (nd & _ & Hnd).
  by apply lookup_lt_Some in Hnd.
Qed.

Lemma similar_repeatable b g :
  (∀ ns0 wfs0, similar ns0 wfs0 (moved (length wfs0)) b b) →
  build b = Some g → repeatable b.
Proof.
  intros Hsim Hbuild w0. unfold build in Hbuild.
  destruct (b empty_world) as [[q we]|] eqn:Ee; [|done]. cbn in Hbuild.
  assert (Hrun : ∀ w, ∃ w', b w = Some (length (workflows w) + q, w') ∧
                            behind (nodes w) (workflows w) we w').
  { intros w. pose proof (Hsim (nodes w) (workflows w) empty_world w) as H.
    rewrite Ee in H. destruct (b w) as [[q' w']|].
    - destruct H as [-> Hb]; [split; cbn; by rewrite ?app_nil_r|]. eauto.
    - destruct H. split; cbn; by rewrite ?app_nil_r. }
  destruct (Hrun w0) as (w1 & Hb1 & Hbeh1).
  destruct (Hrun w1) as (w2 & Hb2 & Hbeh2).
  assert (He01 : extends w0 w1) by (destruct Hbeh1; split; eauto).
  assert (He12 : extends w1 w2) by (destruct Hbeh2; split; eauto).
  assert (Hv1 : view w1 (length (workflows w0) + q) = Some g)
    by (by rewrite (view_behind _ _ _ _ _ Hbeh1)).
  assert (Hv2 : view w2 (length (workflows w1) + q) = Some g)
    by (by rewrite (view_behind _ _ _ _ _ Hbeh2)).
  exists (length (workflows w0) + q), w1, (length (workflows w1) + q), w2, g.
  do 4 (split; [done|]).
  assert (∃ wf, workflows we !! q = Some wf) as [wf Hwf].
  { unfold view in Hbuild. destruct (workflows we !! q); [eauto|done]. }
  assert (Hvalid : ∀ r, r ∈ wf_nodes wf → r < length (nodes we))
    by (intros r; by eapply view_nodes_valid).
  destruct Hbeh1 as [Hn1 Hw1], Hbeh2 as [Hn2 Hw2].
  assert (Hq1 : workflows w2 !! (length (workflows w0) + q)
                = Some (shift_wf (length (nodes w0)) wf)).
  { rewrite Hw2. apply lookup_app_l_Some. rewrite Hw1, lookup_app_r by lia.
    replace (length (workflows w0) + q - length (workflows w0)) with q by lia.
    by rewrite list_lookup_fmap, Hwf. }
  assert (Hq2 : workflows w2 !! (length (workflows w1) + q)
                = Some (shift_wf (length (nodes w1)) wf)).
  { rewrite Hw2, lookup_app_r by lia.
    replace (length (workflows w1) + q - length (workflows w1)) with q by lia.
    by rewrite list_lookup_fmap, Hwf. }
  assert (Hlen : length (nodes w1) = length (nodes w0) + length (nodes we))
    by (by rewrite Hn1, length_app).
  split; [|split; [|repeat split]].
  3: { unfold build. by rewrite Ee. }
  3: done.
  3: by eapply view_extends.
  3: done.
  - exists (shift_wf (length (nodes w0)) wf), (shift_wf (length (nodes w1)) wf),
           (Nat.add (length (nodes we))).
    split; [done|]. split; [done|]. split; [done|]. cbn.
    split; [by rewrite !length_fmap|]. split; [by rewrite !length_fmap|].
    split; [|split; [|split]].
    + rewrite <- list_fmap_compose. apply list_fmap_ext. intros _ r _. cbn. lia.
    + rewrite <- list_fmap_compose. apply list_fmap_ext. intros _ [s sp v t tp] _.
      unfold edge_map; cbn. f_equal; lia.
    + intros r r'. lia.
    + intros r (r0 & -> & Hr0)%list_elem_of_fmap. apply Hvalid in Hr0 as Hlt.
      assert (Hr1 : nodes w2 !! (length (nodes w0) + r0) = nodes we !! r0).
      { rewrite Hn2, lookup_app_l by lia. rewrite Hn1, lookup_app_r by lia.
        f_equal. lia. }
      assert (Hr2 : nodes w2 !! (length (nodes we) + (length (nodes w0) + r0))
                    = nodes we !! r0).
      { rewrite Hn2, lookup_app_r by lia. f_equal. lia. }
      rewrite Hr1, Hr2. split; [|done]. by apply lookup_lt_is_Some.
  - intros wf1 wf2 r Hwf1 Hwf2. rewrite Hq1 in Hwf1. rewrite Hq2 in Hwf2.
    injection Hwf1 as <-. injection Hwf2 as <-. cbn.
    intros (r0 & -> & Hr0%Hvalid)%list_elem_of_fmap (r1 & Hr & _)%list_elem_of_fmap.
    lia.
Qed.


Lemma similar_create_seg_preproc ns0 wfs0 :
  similar ns0 wfs0 (moved (length wfs0)) create_seg_preproc create_seg_preproc.
Proof. unfold create_seg_preproc, Node, MapNode. similar_tac. Qed.

Lemma similar_create_sca s ns0 wfs0 :
  similar ns0 wfs0 (moved (length wfs0)) (create_sca s) (create_sca s).
Proof.
  unfold create_sca, extract_native, extract_standard, Node, MapNode.
  destruct (decide (s = "native")); similar_tac.
Qed.

(** ** Walks, depth and the single-writer check *)

Lemma no_repeat_NoDup l : no_repeat l = true → NoDup l.
Proof.
  induction l as [|x l IH]; cbn; [constructor|].
  intros [Hx Hl]%andb_prop. constructor; [|by apply IH].
  apply negb_true_iff, bool_decide_eq_false in Hx. exact Hx.
Qed.

Lemma single_writerb_sound g : single_writerb g = true → single_writer g.
Proof. apply no_repeat_NoDup. Qed.

Section walks.
Context (g : graph).

Lemma elem_of_succs a b :
  b ∈ succs g a ↔ ∃ e, e ∈ g_edges g ∧ src e = a ∧ dst e = b.
Proof.
  unfold succs, out_edges. rewrite list_elem_of_fmap. split.
  - intros (e & -> & [Hs He]%list_elem_of_filter). eauto.
  - intros (e & He & Hs & <-). exists e. split; [done|].
    apply list_elem_of_filter. done.
Qed.

Lemma walk_reach a b k : walk g a b k ↔ b ∈ reach_in g k a.
Proof.
  split.
  - induction 1 as [a|a b k e Hw IH He Hd]; cbn.
    + apply list_elem_of_singleton. done.
    + apply list_elem_of_bind. exists (src e). split; [|done].
      apply elem_of_succs. eauto.
  - revert b. induction k as [|k IH]; cbn; intros b.
    + intros ->%list_elem_of_singleton. constructor.
    + intros (c & (e & He & <- & <-)%elem_of_succs & Hc)%list_elem_of_bind.
      eapply walk_edge; [by apply IH|done|done].
Qed.

Lemma reach_in_dead k j a : reach_in g k a = [] → reach_in g (j + k) a = [].
Proof. intros H. induction j as [|j IH]; cbn; [done|]. by rewrite IH. Qed.

Lemma depth_boundedb_sound d : depth_boundedb g d = true → depth_bounded g d.
Proof.
  intros H a. unfold depth_boundedb in H.
  rewrite forallb_forall in H.
  destruct (decide (a ∈ src <$> g_edges g)) as [(e & -> & He)%list_elem_of_fmap|Hno].
  - apply list_elem_of_In, H in He. apply bool_decide_eq_true in He. exact He.
  - replace (S d) with (d + 1) by lia. apply reach_in_dead. cbn.
    rewrite app_nil_r. destruct (succs g a) as [|b l] eqn:E; [done|].
    assert (b ∈ succs g a) as (e & He & Hs & _)%elem_of_succs by (rewrite E; left).
    destruct Hno. apply list_elem_of_fmap. eauto.
Qed.

Lemma walk_bounded d a b k : depth_bounded g d → walk g a b k → (k ≤ d)%nat.
Proof.
  intros Hd Hw%walk_reach. destruct (decide (k ≤ d)%nat) as [|Hgt]; [done|].
  replace k with ((k - S d) + S d) in Hw by lia.
  rewrite (reach_in_dead _ _ _ (Hd a)) in Hw. by apply elem_of_nil in Hw.
Qed.

Lemma upstreamb_upstream d a b :
  depth_bounded g d → (d ≤ length (g_nodes g))%nat →
  upstreamb g a b = true ↔ upstream g a b.
Proof.
  intros Hd Hle. unfold upstreamb, upstream.
  rewrite bool_decide_eq_true, Exists_exists. split.
  - intros (k & _ & Hk). exists k. by apply walk_reach.
  - intros (k & Hw). exists k. split; [|by apply walk_reach].
    apply elem_of_seq. pose proof (walk_bounded _ _ _ _ Hd Hw). lia.
Qed.
End walks.


(** ** The graphs of a fresh interpreter *)

(** Every mode flag other than ['native'] selects the [else] branch. *)
Lemma create_sca_cases s :
  create_sca s = create_sca "native" ∨ create_sca s = create_sca "mni".
Proof.
  destruct (decide (s = "native")) as [->|Hne]; [by left|right].
  unfold create_sca.
  destruct (decide (s = "native")) as [E|_]; [exfalso; exact (Hne E)|]. reflexivity.
Qed.

Lemma build_seg : build create_seg_preproc = Some seg_preproc_graph.
Proof. vm_compute. reflexivity. Qed.

Lemma build_sca_native : build (create_sca "native") = Some (sca_graph "native").
Proof. vm_compute. reflexivity. Qed.

Lemma build_sca_mni : build (create_sca "mni") = Some (sca_graph "mni").
Proof. vm_compute. reflexivity. Qed.

Lemma build_sca s :
  build (create_sca s) = Some (sca_graph s) ∧
  (sca_graph s = sca_graph "native" ∨ sca_graph s = sca_graph "mni").
Proof.
  unfold sca_graph.
  destruct (create_sca_cases s) as [Hs | Hs]; rewrite Hs; split;
    auto using build_sca_native, build_sca_mni.
Qed.

Ltac run := vm_compute; reflexivity.
Ltac holds := apply (bool_decide_unpack _); vm_compute; exact I.

Lemma seg_graph_depth : depth_bounded seg_preproc_graph 6.
Proof. apply depth_boundedb_sound. run. Qed.

Lemma sca_graph_depth s : depth_bounded (sca_graph s) 8.
Proof.
  apply depth_boundedb_sound.
  destruct (build_sca s) as [_ [Hs | Hs]]; rewrite Hs; run.
Qed.

(** On the segmentation graph the bounded search decides [upstream]. *)
Lemma seg_upstreamb_upstream a b :
  upstreamb seg_preproc_graph a b = true ↔ upstream seg_preproc_graph a b.
Proof.
  apply (upstreamb_upstream _ 6); [apply seg_graph_depth|].
  apply Nat.leb_le. run.
Qed.

Lemma seg_branches :
  branch seg_preproc_graph CSF
    = ["csf_t1_to_native"; "csf_mni_to_native"; "overlap_csf_with_prior";
       "binarize_threshold_csf"; "csf_mask"] ∧
  branch seg_preproc_graph GM
    = ["gm_t1_to_native"; "gm_mni_to_native"; "overlap_gm_with_prior";
       "binarize_threshold_gm"; "gm_mask"] ∧
  branch seg_preproc_graph WM
    = ["wm_t1_to_native"; "wm_mni_to_native"; "overlap_wm_with_prior";
       "binarize_threshold_wm"; "wm_mask"].
Proof. repeat split; run. Qed.

(** ** The segmentation graph *)

(** C1: the graph of [create_seg_preproc] has exactly one segmentation node,
    [segment], whose only incoming edge comes from [inputspec.brain]; exactly
    three edges leave its probability maps through a channel selector; the
    CSF, GM and WM branches are not empty, consume channel 0, 1 and 2
    respectively, share no node, and no edge leads from one branch into
    another. *)
Theorem seg_one_segmentation_three_branches :
  ∃ g, build create_seg_preproc = Some g ∧
    (∃ seg, filter (λ nd, is_segmentation nd = true) (g_nodes g) = [seg] ∧
            name seg = "segment") ∧
    in_edges g "segment" = [mk_edge "inputspec" "brain" None "segment" "in_files"] ∧
    length (channel_edges g) = 3 ∧
    (∀ t, branch g t ≠ [] ∧ channels_into g (branch g t) = [channel t]) ∧
    (∀ t t' n, t ≠ t' → n ∈ branch g t → n ∉ branch g t') ∧
    (∀ t t' e, e ∈ g_edges g → src e ∈ branch g t → dst e ∈ branch g t' → t = t').
Proof.
  destruct seg_branches as (Hc & Hg & Hw).
  exists seg_preproc_graph. split; [apply build_seg|].
  split; [eexists; split; run|].
  split; [run|]. split; [run|].
  split; [intros []; rewrite ?Hc, ?Hg, ?Hw; (split; [discriminate|run])|].
  split.
  - intros t t' n Hne. revert n. apply Forall_forall.
    destruct t, t'; try congruence; rewrite ?Hc, ?Hg, ?Hw; holds.
  - intros t t' e He Hs Hd. destruct (decide (t = t')) as [|Hne]; [assumption|exfalso].
    revert e He Hs Hd.
    assert (Forall (λ e, ¬ (src e ∈ branch seg_preproc_graph t ∧
                            dst e ∈ branch seg_preproc_graph t'))
                   (g_edges seg_preproc_graph)) as H.
    { destruct t, t'; try congruence; rewrite ?Hc, ?Hg, ?Hw; holds. }
    rewrite Forall_forall in H. intros e He Hs Hd. exact (H e He (conj Hs Hd)).
Qed.

(** C5: for each tissue, the node [fin] exposed as the final mask has exactly
    two registration nodes upstream, one linear ([FLIRT]) and one nonlinear
    ([ApplyWarp]); the other processing nodes it depends on are exactly one
    masking node [overlap], fed by the two registrations and by nothing
    else, one threshold node [thr] fed by [overlap], and [fin] itself, a
    masking node fed by [thr]; and a walk from [segment] to [fin] exists and
    every such walk has exactly 4 edges. *)
Theorem seg_branch_shape :
  ∃ g, build create_seg_preproc = Some g ∧
    ∀ t, ∃ lin nonlin overlap thr fin,
      final_mask_node g t = Some fin ∧
      name <$> upstream_of g is_registration fin = [lin; nonlin] ∧
      iface <$> get_node g lin = Some FLIRT ∧
      iface <$> get_node g nonlin = Some ApplyWarp ∧
      name <$> upstream_of g (λ nd, is_processing nd && negb (is_registration nd)) fin
        = [overlap; thr; fin] ∧
      iface <$> get_node g overlap = Some MultiImageMaths ∧
      iface <$> get_node g thr = Some ImageMaths ∧
      iface <$> get_node g fin = Some MultiImageMaths ∧
      src <$> in_edges g overlap = [lin; nonlin] ∧
      edges_between g overlap thr = [mk_edge overlap "out_file" None thr "in_file"] ∧
      edges_between g thr fin = [mk_edge thr "out_file" None fin "in_file"] ∧
      (∀ k, walk g "segment" fin k ↔ k = 4).
Proof.
  exists seg_preproc_graph. split; [apply build_seg|]. intros t.
  destruct (chain t) as [[[[lin nonlin] overlap] thr] fin] eqn:E.
  exists lin, nonlin, overlap, thr, fin.
  do 11 (split; [destruct t; injection E as <- <- <- <- <-; run|]).
  intros k. split.
  - intros Hw. pose proof (walk_bounded _ _ _ _ _ seg_graph_depth Hw) as Hk.
    apply walk_reach in Hw.
    destruct (decide (k = 4)) as [|Hne]; [assumption|exfalso].
    assert (k = 0 ∨ k = 1 ∨ k = 2 ∨ k = 3 ∨ k = 5 ∨ k = 6) as Hcases by lia.
    destruct t; injection E as <- <- <- <- <-;
      destruct Hcases as [Hc|[Hc|[Hc|[Hc|[Hc|Hc]]]]]; rewrite Hc in Hw;
      apply (bool_decide_pack _) in Hw; vm_compute in Hw; exact Hw.
  - intros Hk. rewrite Hk. apply walk_reach.
    destruct t; injection E as <- <- <- <- <-; holds.
Qed.

(** ** The correlation graph *)

(** C2: in native mode exactly one registration node takes the seed list as
    its input image; it is [warp_to_native], it is upstream of [time_series]
    and its [interp] parameter is ['nn'].  In mni mode no node of the graph
    is such a registration, [warp_to_native] is not in the graph, and the
    seed list is the only writer of the [mask] port of [time_series]. *)
Theorem sca_seed_registration_by_mode :
  (∃ g nd, build (create_sca "native") = Some g ∧
     seed_registrations g = [nd] ∧
     name nd = "warp_to_native" ∧
     upstream g (name nd) "time_series" ∧
     inputs nd !! "interp" = Some (PyStr "nn")) ∧
  (∃ g, build (create_sca "mni") = Some g ∧
     seed_registrations g = [] ∧
     ("warp_to_native" ∉ node_names g) ∧
     port_writers g "time_series" "mask"
       = [mk_edge "seed_list_input" "seed_list" None "time_series" "mask"]).
Proof.
  split.
  - exists (sca_graph "native").
    exists (mk_node "warp_to_native" ApplyWarp (Some ["ref_file"; "postmat"])
                    (<["interp" := PyStr "nn"]> ∅)).
    split; [apply build_sca_native|]. split; [run|]. split; [reflexivity|].
    split; [|run]. exists 0. apply walk_reach. holds.
  - exists (sca_graph "mni"). split; [apply build_sca_mni|].
    split; [run|]. split; [holds|run].
Qed.

(** C6: in mni mode the only writer of the [in_file] port of [corr] is
    [inputspec.rest_res_filt], the input that also feeds the registration
    [warp_to_standard_input_functional]; no edge leads from that
    registration to [corr]. *)
Theorem sca_mni_corr_native_input :
  ∃ g, build (create_sca "mni") = Some g ∧
    port_writers g "corr" "in_file"
      = [mk_edge "inputspec" "rest_res_filt" None "corr" "in_file"] ∧
    port_writers g "warp_to_standard_input_functional" "in_file"
      = [mk_edge "inputspec" "rest_res_filt" None
                 "warp_to_standard_input_functional" "in_file"] ∧
    edges_between g "warp_to_standard_input_functional" "corr" = [].
Proof. exists (sca_graph "mni"). split; [apply build_sca_mni|]. repeat split; run. Qed.

(** C4: what the code does.  For every mode flag the edges into
    [outputspec] are exactly three: the smoothed map into [Z_FWHM], the
    correlation map into [correlations] and the Z-transformed map into
    [Z_trans_correlations].  The registered Z-map, the output of
    [warp_to_standard], goes to [smooth_mni] only, and the declared ports
    [Z_2standard] and [Z_2standard_FWHM] have no writer. *)
Theorem sca_registered_map_not_exposed (extraction_space : string) :
  ∃ g, build (create_sca extraction_space) = Some g ∧
    in_edges g "outputspec"
      = [mk_edge "smooth_mni" "out_file" None "outputspec" "Z_FWHM";
         mk_edge "corr" "out_file" None "outputspec" "correlations";
         mk_edge "z_trans" "out_file" None "outputspec" "Z_trans_correlations"] ∧
    out_edges g "warp_to_standard"
      = [mk_edge "warp_to_standard" "out_file" None "smooth_mni" "in_file"] ∧
    port_writers g "outputspec" "Z_2standard" = [] ∧
    port_writers g "outputspec" "Z_2standard_FWHM" = [].
Proof.
  exists (sca_graph extraction_space).
  destruct (build_sca extraction_space) as [Hb Hs]. split; [exact Hb|].
  destruct Hs as [Hs | Hs]; rewrite Hs; repeat split; run.
Qed.

Lemma feeds_iteratedb_spec g n p :
  feeds_iterated g n p ↔ feeds_iteratedb g n p = true.
Proof.
  unfold feeds_iterated, feeds_iteratedb. rewrite existsb_exists. split.
  - intros (e & nd & its & He & Hs & Hp & Hg & Hi & Hin). exists e.
    split; [by apply list_elem_of_In|].
    rewrite Hg. cbn. rewrite Hi.
    rewrite !andb_true_iff, !bool_decide_eq_true. done.
  - intros (e & He%list_elem_of_In & Hb).
    rewrite !andb_true_iff, !bool_decide_eq_true in Hb.
    destruct Hb as [[Hs Hp] Hb].
    destruct (get_node g (dst e)) as [nd|] eqn:Hg; cbn in Hb; [|done].
    destruct (iterfield nd) as [its|] eqn:Hi; [|done].
    apply bool_decide_eq_true in Hb. exists e, nd, its. done.
Qed.

Lemma smoothed_len_sca s N M L : smoothed_len (sca_graph s) N M L = Some L.
Proof.
  destruct (build_sca s) as [_ [Hs | Hs]]; rewrite Hs;
    cbv -[Nat.eqb]; rewrite !Nat.eqb_refl; reflexivity.
Qed.

(** C3, as amended: for every mode flag, neither the seed list nor the
    kernel widths are wired to an iterated input of a MapNode, and when the
    seed list has [N] elements, the kernel widths [M] and the inputs of
    [inputspec] [L], the port [outputspec.Z_FWHM] carries [L] elements. *)
Theorem sca_smoothed_length (extraction_space : string) (N M L : nat) :
  ∃ g, build (create_sca extraction_space) = Some g ∧
    ¬ feeds_iterated g "seed_list_input" "seed_list" ∧
    ¬ feeds_iterated g "fwhm_input" "fwhm" ∧
    smoothed_len g N M L = Some L.
Proof.
  exists (sca_graph extraction_space).
  destruct (build_sca extraction_space) as [Hb Hs]. split; [exact Hb|].
  split; [|split; [|apply smoothed_len_sca]];
    rewrite feeds_iteratedb_spec; apply not_true_iff_false;
    destruct Hs as [Hs | Hs]; rewrite Hs; run.
Qed.

(** C3, as stated, fails: in mni mode with two seeds, three kernel widths
    and single files on [inputspec], the smoothed output carries one
    element, not six. *)
Lemma sca_fanout_not_product :
  ¬ (∀ (extraction_space : string) (N M L : nat) g,
       build (create_sca extraction_space) = Some g →
       smoothed_len g N M L = Some (N * M)).
Proof.
  intros H. specialize (H "mni" 2 3 1 _ build_sca_mni).
  rewrite smoothed_len_sca in H. discriminate H.
Qed.

(** ** Both builders *)

(** C8: in the graph of [create_seg_preproc] and in the graph of
    [create_sca] for every mode flag, no two edges end at the same input
    port of the same node. *)
Theorem builders_single_writer :
  (∃ g, build create_seg_preproc = Some g ∧ single_writer g) ∧
  (∀ extraction_space,
     ∃ g, build (create_sca extraction_space) = Some g ∧ single_writer g).
Proof.
  split.
  - exists seg_preproc_graph. split; [apply build_seg|].
    apply single_writerb_sound. run.
  - intros s. exists (sca_graph s). destruct (build_sca s) as [Hb Hs].
    split; [exact Hb|]. apply single_writerb_sound.
    destruct Hs as [Hs | Hs]; rewrite Hs; run.
Qed.

(** C7: from any store, two calls of [create_seg_preproc] in a row, or two
    calls of [create_sca] with the same mode flag, both return; neither
    touches an object that was there before; the two workflows have the
    same node and edge counts and are isomorphic, have no node object in
    common, and both denote the graph the builder returns in a fresh
    interpreter. *)
Theorem builders_repeatable :
  repeatable create_seg_preproc ∧
  ∀ extraction_space, repeatable (create_sca extraction_space).
Proof.
  split.
  - eapply similar_repeatable; [apply similar_create_seg_preproc | apply build_seg].
  - intros s. eapply similar_repeatable;
      [intros; apply similar_create_sca | apply (build_sca s)].
Qed.

End Builders.

(** * Properties of the configuration window *)

Module Config.
Import Py ModelConfig.

(** ** [validate] *)

Section decides.
Context {S : Type}.

Lemma bind_return {A B} (c : St S A) (k : A → St S B) s a s' :
  c s = (Return a, s') → (c ≫= k) s = k a s'.
Proof. intros H. unfold mbind, St_bind. by rewrite H. Qed.

Lemma bind_raise {A B} (c : St S A) (k : A → St S B) s e s' :
  c s = (Raise e, s') → (c ≫= k) s = (Raise e, s').
Proof. intros H. unfold mbind, St_bind. by rewrite H. Qed.

Lemma decides_iff P Q (c : St S unit) : (P ↔ Q) → decides P c → decides Q c.
Proof. intros HPQ Hc s. destruct (Hc s) as [[HP ?]|[HP ?]]; [left|right]; tauto. Qed.

Lemma decides_ret : decides True (mret tt : St S unit).
Proof. intros s. left. done. Qed.

Lemma decides_seq P Q (c1 c2 : St S unit) :
  decides P c1 → decides Q c2 → decides (P ∧ Q) (c1 ;; c2).
Proof.
  intros H1 H2 s. unfold mbind, St_bind.
  destruct (H1 s) as [[HP ->]|[HP (e & s' & -> & He)]].
  - destruct (H2 s) as [[HQ ->]|[HQ (e & s' & -> & He)]]; [left; tauto|].
    right. split; [tauto|eauto].
  - right. split; [tauto|eauto].
Qed.

Lemma decides_when (b : bool) P (c : St S unit) :
  decides P c → decides (b = true → P) (when b c).
Proof.
  intros Hc s. destruct b; cbn.
  - destruct (Hc s) as [[HP ->]|[HP ?]]; [left; tauto|right].
    split; [|done]. intros Hb. apply HP, Hb. done.
  - left. split; [discriminate|done].
Qed.

Lemma decides_for_each {A} (P : A → Prop) (l : list A) (body : A → St S unit) :
  (∀ x, decides (P x) (body x)) → decides (Forall P l) (for_each l body).
Proof.
  intros Hb. induction l as [|x l IH]; cbn.
  - eapply decides_iff; [|apply decides_ret]. split; [constructor|done].
  - eapply decides_iff; [|apply decides_seq; [apply Hb|apply IH]].
    split; [intros []; by constructor|by inversion 1].
Qed.
End decides.

Section validate.
Context (exists_path : string → bool) (py_int : string → option Z).

Lemma decides_display w msg : decides False (display (A := unit) w msg).
Proof. intros s. right. split; [tauto|]. unfold display. eauto. Qed.

Lemma decides_unless (b : bool) w msg :
  decides (b = false) (when b (display w msg)).
Proof.
  eapply decides_iff; [|apply decides_when, decides_display].
  destruct b; split; try done; intros H; by destruct H.
Qed.

Lemma split_cons sep s : ∃ x l, split sep s = x :: l.
Proof.
  induction s as [|a s (x & l & IH)]; cbn; [eauto|].
  destruct (Ascii.eqb a sep); [eauto|]. rewrite IH. eauto.
Qed.

Lemma comprehension_int l (s : gui) :
  match mapM py_int l with
  | Some zs => comprehension (int py_int) l s = (Return zs, s)
  | None => ∃ s', comprehension (int py_int) l s = (Raise ValueError, s')
  end.
Proof.
  induction l as [|v l IH]; [done|].
  change (comprehension (int py_int) (v :: l) s)
    with (match int py_int v s with
          | (Return y, s1) =>
              match comprehension (int py_int) l s1 with
              | (Return ys, s2) => (Return (y :: ys), s2)
              | (Raise e, s2) => (Raise e, s2)
              end
          | (Raise e, s1) => (Raise e, s1)
          end).
  assert (int py_int v s = match py_int v with
                           | Some z => (Return z, s)
                           | None => (Raise ValueError, s)
                           end) as -> by (unfold int; by destruct (py_int v)).
  cbn [mapM]. destruct (py_int v) as [z|]; cbn; [|eauto].
  destruct (mapM py_int l) as [zs|]; cbn.
  - by rewrite IH.
  - destruct IH as [s' ->]. eauto.
Qed.

Lemma length_zero (s : string) : String.length s = 0 ↔ s = "".
Proof. destruct s; cbn; split; congruence. Qed.

Lemma check_values (columns : list string) key (val : entry) :
  decides (∃ ints, mapM py_int (split comma (value val)) = Some ints ∧
                   Forall (λ v, v = 1 ∨ v = 0)%Z ints ∧
                   length ints = length columns)
    (value ← comprehension (int py_int) (split comma (value val)) ;
     for_each value (λ v,
       when (bool_decide (v ∉ [1; 0]%Z))
         (display (win val) "Invalid Entry. Only 1 and 0 entry allowed")) ;;
     when (bool_decide (length value ≠ length columns))
       (display (win val)
          ("Number of values in " +:+ key +:+
           " do not match specified columns in the model"))).
Proof.
  intros s.
  pose proof (comprehension_int (split comma (value val)) s) as Hc.
  destruct (mapM py_int (split comma (value val))) as [zs|].
  - rewrite (bind_return _ _ _ _ _ Hc).
    pose proof (decides_seq _ _ _ _
      (decides_for_each (λ v, bool_decide (v ∉ [1; 0]%Z) = false) zs _
         (λ v, decides_unless _ (win val) _))
      (decides_unless (bool_decide (length zs ≠ length columns)) (win val)
         ("Number of values in " +:+ key +:+
          " do not match specified columns in the model")) s) as [[[HF HL] ->]|[Hn Hr]].
    + left. split; [|done]. exists zs. split; [done|].
      apply bool_decide_eq_false in HL. split; [|by apply dec_stable].
      eapply Forall_impl; [exact HF|]. intros v Hv%bool_decide_eq_false.
      apply dec_stable in Hv. rewrite !elem_of_cons, elem_of_nil in Hv.
      destruct Hv as [|[|[]]]; auto.
    + right. split; [|exact Hr]. intros (ints & [= <-] & HF & HL). apply Hn. split.
      * eapply Forall_impl; [exact HF|]. intros v Hv. apply bool_decide_eq_false.
        intros Hv'. apply Hv'. rewrite !elem_of_cons. destruct Hv; auto.
      * apply bool_decide_eq_false. tauto.
  - right. split; [by intros (ints & ? & _)|]. destruct Hc as [s' Hc].
    rewrite (bind_raise _ _ _ _ _ Hc). eauto.
Qed.

Lemma check_grouping (config_map : gmap string entry) (columns : list string)
    key (val : entry) :
  decides (∃ m, value <$> config_map !! "modelGroupVariancesSeparately" = Some m ∧
                (m = "On" → value val ≠ "" ∧ value val ∈ columns))
    (separately ← get_item value (config_map !! "modelGroupVariancesSeparately") ;
     when (bool_decide (separately = "On"))
       (when (bool_decide (String.length (value val) = 0))
          (display (win val) (key +:+ " field is empty!")) ;;
        when (bool_decide (value val ∉ columns))
          (display (win val)
             "Grouping variable/column not a valid column in the model. Please verify the name"))).
Proof.
  intros s.
  destruct (config_map !! "modelGroupVariancesSeparately") as [e|]; cbn.
  - rewrite (bind_return _ _ s (value e) s) by done.
    pose proof (decides_when (bool_decide (value e = "On")) _ _
      (decides_seq _ _ _ _
         (decides_unless (bool_decide (String.length (value val) = 0)) (win val)
            (key +:+ " field is empty!"))
         (decides_unless (bool_decide (value val ∉ columns)) (win val)
            "Grouping variable/column not a valid column in the model. Please verify the name"))
      s) as [[HP ->]|[Hn Hr]].
    + left. split; [|done]. exists (value e). split; [done|]. intros HOn.
      destruct HP as [H1 H2]; [by apply bool_decide_eq_true|].
      apply bool_decide_eq_false in H1, H2. rewrite length_zero in H1.
      split; [done|by apply dec_stable].
    + right. split; [|exact Hr]. intros (m & [= <-] & Hm). apply Hn.
      intros HOn%bool_decide_eq_true. destruct (Hm HOn) as [H1 H2].
      split; apply bool_decide_eq_false; [by rewrite length_zero|tauto].
  - right. split; [by intros (m & ? & _)|].
    rewrite (bind_raise _ _ s TypeError s) by done. eauto.
Qed.

Lemma check_field_decides config_map columns key val :
  decides (field_passes exists_path py_int columns
             (value <$> config_map !! "modelGroupVariancesSeparately") key val)
          (check_field exists_path py_int config_map columns key val).
Proof.
  unfold check_field, field_passes.
  eapply decides_iff; [|apply decides_seq; [apply decides_unless|
    apply decides_seq; [apply decides_when, decides_unless|
    apply decides_seq; [apply decides_when, check_values|
    apply decides_when, check_grouping]]]].
  rewrite andb_false_iff, andb_true_iff, negb_false_iff,
    !bool_decide_eq_false, !bool_decide_eq_true, length_zero.
  split.
  - intros (H1 & H2 & H3 & H4). repeat split; tauto.
  - intros (H1 & H2 & H3 & H4). repeat split; try tauto.
    destruct (decide (key = "groupingVariable")); [left; tauto|right; tauto].
Qed.
End validate.

(** C10: [validate] always returns, with 1 or with -1, and never raises: it
    returns 1, showing nothing, exactly when every check passes, and -1 when
    some check fails (an empty field other than the grouping variable, a
    path that does not exist, an entry of the categorical or demean list
    that is not 0 or 1 or not a number, a list whose length differs from the
    number of columns, a grouping variable that is empty or not a column, a
    missing key). *)
Theorem validate_total exists_path py_int (config_map : gmap string entry) (shown : gui) :
  ∃ shown',
    (validate exists_path py_int config_map shown = (Return 1%Z, shown') ∧
     shown' = shown ∧ every_check_passes exists_path py_int config_map) ∨
    (validate exists_path py_int config_map shown = (Return (-1)%Z, shown') ∧
     ¬ every_check_passes exists_path py_int config_map).
Proof.
  unfold validate, try_except_Exception, validate_body, every_check_passes.
  destruct (config_map !! "columnsInModel") as [c|] eqn:Ec.
  - rewrite (bind_return _ _ shown (value c) shown) by done.
    destruct (split_cons comma (value c)) as (x & l & Hsplit).
    destruct (strip <$> split comma (value c)) as [|y ys] eqn:Ecols;
      [by rewrite Hsplit in Ecols|].
    cbv iota. rewrite <- Ecols. clear x l Hsplit y ys Ecols.
    pose proof (decides_for_each
      (λ kv, field_passes exists_path py_int (strip <$> split comma (value c))
               (value <$> config_map !! "modelGroupVariancesSeparately") kv.1 kv.2)
      (map_to_list config_map) _
      (λ kv, check_field_decides exists_path py_int config_map
               (strip <$> split comma (value c)) kv.1 kv.2) shown)
      as [[HF Hrun]|[HF (e & s' & Hrun & He)]].
    + exists shown. left. rewrite (bind_return _ _ _ _ _ Hrun). split; [done|].
      split; [done|]. exists c. split; [done|]. apply map_Forall_to_list.
      eapply Forall_impl; [exact HF|]. by intros [k v].
    + exists s'. right. rewrite (bind_raise _ _ _ _ _ Hrun), He. split; [done|].
      intros (c' & [= <-] & Hall%map_Forall_to_list). apply HF.
      eapply Forall_impl; [exact Hall|]. by intros [k v].
  - exists shown. right. rewrite (bind_raise _ _ shown TypeError shown) by done.
    split; [done|]. by intros (c & ? & _).
Qed.

(** ** The serializer of [save] *)

Lemma bind_return_eq {S A B} (c : St S A) (k : A → St S B) s a s' :
  c s = (Return a, s') → (c ≫= k) s = k a s'.
Proof. intros H. unfold mbind, St_bind. by rewrite H. Qed.

Lemma str_app_assoc (a b c : string) : (a +:+ b) +:+ c = a +:+ b +:+ c.
Proof.
  induction a as [|x a IH]; [reflexivity|].
  change (String x ((a +:+ b) +:+ c) = String x (a +:+ b +:+ c)). by f_equal.
Qed.

Lemma str_app_nil_r (a : string) : a +:+ "" = a.
Proof.
  induction a as [|x a IH]; [reflexivity|].
  change (String x (a +:+ "") = String x a). by f_equal.
Qed.

Section save.
Context (substitution_map : gmap string pyobj)
        (literal_eval : string → outcome pyobj)
        (py_repr : pyobj → string).
Context (Hmap : map_Forall (λ _ v, v ≠ PyNone) substitution_map).

Local Abbreviation written_value := (written_value substitution_map literal_eval).
Local Abbreviation claimed_value := (claimed_value substitution_map literal_eval).

Lemma written_value_claimed it v f :
  claimed_value it = Some v → written_value it f = (Return v, f).
Proof.
  unfold ModelConfig.written_value, ModelConfig.claimed_value, literal.
  repeat case_decide.
  - destruct (substitution_map !! item_value it) as [alias|] eqn:E; cbn.
    + intros [= <-]. apply Hmap in E. by destruct alias.
    + destruct (literal_eval (item_value it)) as [o|e]; cbn; [|done].
      by intros [= <-].
  - unfold mbind, St_bind.
    destruct (literal_eval (item_value it)) as [o|e]; cbn; [|done].
    destruct (py_iter o); cbn; [by intros [= <-]|done].
  - by intros [= <-].
  - by intros [= <-].
Qed.

Lemma write_comments (lines : list string) f :
  for_each lines (λ line, print py_repr [PyStr "#"; PyStr line]) f
  = (Return tt, f +:+ join ((λ line, "# " +:+ line +:+ nl) <$> lines)).
Proof.
  revert f. induction lines as [|line lines IH]; intros f; cbn.
  - unfold mret, St_ret. by rewrite str_app_nil_r.
  - rewrite (bind_return_eq _ _ f tt (f +:+ "# " +:+ line +:+ nl)) by reflexivity.
    rewrite IH. by rewrite !str_app_assoc.
Qed.

Lemma write_item_claimed it v f :
  tidy (item_name it) → claimed_value it = Some v → ends_line v = false →
  write_item substitution_map literal_eval py_repr it f
  = (Return tt, f +:+ claimed_text py_repr it v).
Proof.
  intros Hname Hv Hend. unfold write_item.
  rewrite (bind_return_eq _ _ _ _ _ (written_value_claimed it v f Hv)).
  rewrite (bind_return_eq _ _ _ _ _ (write_comments _ f)).
  unfold print, claimed_text. cbn [print_items]. unfold tidy in Hname.
  rewrite Hname, Hend. cbn [negb]. rewrite !str_app_assoc. reflexivity.
Qed.
End save.




Example write_sample :
  write_config sample_substitution_map sample_literal_eval sample_repr
               sample_config_list ""
  = (Return tt, sample_file).
Proof. vm_compute. reflexivity. Qed.

(** A value that is not a literal stops the loop: what was written before
    stays, the items after it are not written. *)
Example write_stops :
  write_config sample_substitution_map sample_literal_eval sample_repr
    [mk_item "modelName" "m" 0 "h"; mk_item "deMean" "abc" 5 "h";
     mk_item "x" "y" 0 "h"] ""
  = (Raise ValueError, "# h" +:+ nl +:+ "modelName :  m " +:+ nl +:+ nl).
Proof. vm_compute. reflexivity. Qed.

Example validate_sample :
  validate (λ _, true) sample_int sample_config_map [] = (Return 1%Z, []).
Proof. vm_compute. reflexivity. Qed.

Example validate_sample_bad :
  validate (λ _, true) sample_int
           (<["deMean" := mk_entry 5 "1,2" true]> sample_config_map) []
  = (Return (-1)%Z, [(5, "Invalid Entry. Only 1 and 0 entry allowed")]).
Proof. vm_compute. reflexivity. Qed.

End Config.

(** * More properties of the workflows *)

Module Workflows.
Import Engine Graph Built Shape Audit SegPreproc Sca Builders.

(** ** The built graphs *)

Ltac computed := vm_compute; reflexivity.
Ltac decided := apply (bool_decide_unpack _); vm_compute; exact I.

Lemma create_sca_else s : s ≠ "native" → create_sca s = create_sca "mni".
Proof.
  intros Hne. unfold create_sca.
  destruct (decide (s = "native")) as [E|_]; [exfalso; exact (Hne E)|]. reflexivity.
Qed.

Lemma sca_graph_else s : s ≠ "native" → sca_graph s = sca_graph "mni".
Proof. intros Hne. unfold sca_graph. by rewrite (create_sca_else s Hne). Qed.

Lemma walk_app g a b c j k : walk g a b j → walk g b c k → walk g a c (k + j).
Proof.
  intros Hab Hbc. induction Hbc as [b|b c k e Hbc IH He Hd]; [done|].
  cbn. eapply walk_edge; [by apply IH|done|done].
Qed.

Lemma walk_round g a k n : walk g a a k → walk g a a (n * k).
Proof.
  intros H. induction n as [|n IH]; cbn; [constructor|].
  exact (walk_app g a a a (n * k) k IH H).
Qed.

Lemma depth_bounded_acyclic g d a : depth_bounded g d → ¬ upstream g a a.
Proof.
  intros Hd [k Hk]. pose proof (walk_round g a (S k) (S d) Hk) as Hbig.
  apply (walk_bounded g d) in Hbig; [|done]. nia.
Qed.

(** X1: the graphs the two builders return have no cycle: no node is
    upstream of itself, for the segmentation workflow and for the
    correlation workflow of every mode string. *)
Theorem builders_acyclic :
  (∃ g, build create_seg_preproc = Some g ∧ ∀ a, ¬ upstream g a a) ∧
  (∀ extraction_space,
     ∃ g, build (create_sca extraction_space) = Some g ∧ ∀ a, ¬ upstream g a a).
Proof.
  split.
  - exists seg_preproc_graph. split; [apply build_seg|].
    intros a. apply (depth_bounded_acyclic _ 6), seg_graph_depth.
  - intros s. exists (sca_graph s). split; [apply build_sca|].
    intros a. apply (depth_bounded_acyclic _ 8), sca_graph_depth.
Qed.

(** X2: in the graphs the two builders return the node names are distinct
    and every edge runs between two nodes of the graph; the segmentation
    graph has 21 nodes and 60 edges, the correlation graph 11 nodes and 20
    edges in every mode. *)
Theorem builders_graph_ok :
  (∃ g, build create_seg_preproc = Some g ∧ graph_ok g ∧
        length (g_nodes g) = 21 ∧ length (g_edges g) = 60) ∧
  (∀ extraction_space,
     ∃ g, build (create_sca extraction_space) = Some g ∧ graph_ok g ∧
          length (g_nodes g) = 11 ∧ length (g_edges g) = 20).
Proof.
  split.
  - exists seg_preproc_graph. split; [apply build_seg|].
    split; [split; decided|]. split; computed.
  - intros s. exists (sca_graph s). destruct (build_sca s) as [Hb Hs].
    split; [exact Hb|].
    destruct Hs as [Hs | Hs]; rewrite Hs; (split; [split; decided|]); split; computed.
Qed.

(** X3: every iterated input port ([iterfield]) of every MapNode of the
    returned graphs is written by exactly one edge. *)
Theorem builders_iterated_ports_wired :
  (∃ g, build create_seg_preproc = Some g ∧
        Forall (λ np, length (port_writers g np.1 np.2) = 1) (iterated_ports g)) ∧
  (∀ extraction_space,
     ∃ g, build (create_sca extraction_space) = Some g ∧
          Forall (λ np, length (port_writers g np.1 np.2) = 1) (iterated_ports g)).
Proof.
  split.
  - exists seg_preproc_graph. split; [apply build_seg|]. decided.
  - intros s. exists (sca_graph s). destruct (build_sca s) as [Hb Hs].
    split; [exact Hb|]. destruct Hs as [Hs | Hs]; rewrite Hs; decided.
Qed.

(** X4: [create_sca] creates the nodes [register] and [smooth] but never
    connects them, so they are in no returned graph; of [warp_to_native] and
    [warp_to_standard_input_functional] the graph holds the first in native
    mode only and the second in every other mode only. *)
Theorem sca_unused_nodes (extraction_space : string) :
  ∃ g, build (create_sca extraction_space) = Some g ∧
    ("register" ∉ node_names g) ∧ ("smooth" ∉ node_names g) ∧
    (extraction_space = "native" →
       ("warp_to_native" ∈ node_names g) ∧
       ("warp_to_standard_input_functional" ∉ node_names g)) ∧
    (extraction_space ≠ "native" →
       ("warp_to_native" ∉ node_names g) ∧
       ("warp_to_standard_input_functional" ∈ node_names g)).
Proof.
  exists (sca_graph extraction_space).
  destruct (build_sca extraction_space) as [Hb Hs]. split; [exact Hb|].
  split; [destruct Hs as [Hs | Hs]; rewrite Hs; decided|].
  split; [destruct Hs as [Hs | Hs]; rewrite Hs; decided|].
  split.
  - intros E. rewrite E. split; decided.
  - intros Hne. rewrite (sca_graph_else _ Hne). split; decided.
Qed.

(** X5: of the fields [inputspec] of the segmentation workflow declares,
    [standard_res_brain] is the only one no edge reads; [outputspec] declares
    20 fields and each is written by exactly one edge. *)
Theorem seg_spec_fields :
  ∃ g, build create_seg_preproc = Some g ∧
    unread g "inputspec" = ["standard_res_brain"] ∧
    length (fields_of g "outputspec") = 20 ∧
    Forall (λ p, length (port_writers g "outputspec" p) = 1) (fields_of g "outputspec").
Proof.
  exists seg_preproc_graph. split; [apply build_seg|].
  split; [computed|]. split; [computed|decided].
Qed.

(** X6: in native mode every declared field of [inputspec] of the
    correlation workflow is read by some edge; in every other mode [ref] and
    [postmat] are read by none. *)
Theorem sca_unread_inputs (extraction_space : string) :
  ∃ g, build (create_sca extraction_space) = Some g ∧
    (extraction_space = "native" → unread g "inputspec" = []) ∧
    (extraction_space ≠ "native" → unread g "inputspec" = ["ref"; "postmat"]).
Proof.
  exists (sca_graph extraction_space). split; [apply build_sca|]. split.
  - intros E. rewrite E. computed.
  - intros Hne. rewrite (sca_graph_else _ Hne). computed.
Qed.

(** X7: the inputs set on a node before it is cloned are on the clones: the
    three ApplyWarp nodes of the segmentation graph have [interp = 'nn'], the
    three FLIRT nodes [apply_xfm = True], the six MultiImageMaths nodes
    [op_string = '-mas %s '], and the ImageMaths threshold nodes have no
    input set. *)
Theorem seg_clones_inherit :
  ∃ g, build create_seg_preproc = Some g ∧
    name <$> with_iface g ApplyWarp
      = ["csf_mni_to_native"; "wm_mni_to_native"; "gm_mni_to_native"] ∧
    Forall (λ nd, inputs nd !! "interp" = Some (PyStr "nn")) (with_iface g ApplyWarp) ∧
    name <$> with_iface g FLIRT
      = ["csf_t1_to_native"; "wm_t1_to_native"; "gm_t1_to_native"] ∧
    Forall (λ nd, inputs nd !! "apply_xfm" = Some (PyBool true)) (with_iface g FLIRT) ∧
    name <$> with_iface g MultiImageMaths
      = ["overlap_csf_with_prior"; "csf_mask"; "overlap_wm_with_prior"; "wm_mask";
         "overlap_gm_with_prior"; "gm_mask"] ∧
    Forall (λ nd, inputs nd !! "op_string" = Some (PyStr "-mas %s "))
           (with_iface g MultiImageMaths) ∧
    Forall (λ nd, inputs nd = ∅) (with_iface g ImageMaths).
Proof.
  exists seg_preproc_graph. split; [apply build_seg|].
  split; [computed|]. split; [vm_compute; repeat constructor|].
  split; [computed|]. split; [vm_compute; repeat constructor|].
  split; [computed|]. split; [vm_compute; repeat constructor|].
  vm_compute; repeat constructor.
Qed.
End Workflows.

(** * More properties of the configuration window *)

Module Forms.
Import Py ModelConfig Form Config.

(** ** [validate], message by message *)

Section checks.
Context {S : Type} (Q : S → S → Prop).

Lemma checks_iff P P' (c : St S unit) : (P ↔ P') → checks P Q c → checks P' Q c.
Proof. intros HP Hc s. destruct (Hc s) as [[? ?]|[? ?]]; [left|right]; tauto. Qed.

Lemma checks_ret : checks True Q (mret tt : St S unit).
Proof. intros s. left. done. Qed.

Lemma checks_seq P P' (c1 c2 : St S unit) :
  checks P Q c1 → checks P' Q c2 → checks (P ∧ P') Q (c1 ;; c2).
Proof.
  intros H1 H2 s.
  destruct (H1 s) as [[HP E1]|[HP (e & s' & E1 & He)]].
  - rewrite (bind_return _ _ _ _ _ E1).
    destruct (H2 s) as [[HP' E2]|[HP' Hr]]; [left; tauto|].
    right. split; [tauto|exact Hr].
  - rewrite (bind_raise _ _ _ _ _ E1). right. split; [tauto|eauto].
Qed.

Lemma checks_when (b : bool) P (c : St S unit) :
  checks P Q c → checks (b = true → P) Q (when b c).
Proof.
  intros Hc s. destruct b; cbn.
  - destruct (Hc s) as [[HP ->]|[HP ?]]; [left; tauto|right].
    split; [|done]. intros Hb. apply HP, Hb. done.
  - left. split; [discriminate|done].
Qed.

Lemma checks_when_if (b : bool) P (c : St S unit) :
  (b = true → checks P Q c) → checks (b = true → P) Q (when b c).
Proof.
  intros Hc. destruct b; [by apply checks_when, Hc|].
  intros s. left. split; [discriminate|done].
Qed.

Lemma checks_for_each {A} (P : A → Prop) (l : list A) (body : A → St S unit) :
  Forall (λ x, checks (P x) Q (body x)) l → checks (Forall P l) Q (for_each l body).
Proof.
  induction 1 as [|x l Hx _ IH]; cbn.
  - eapply checks_iff; [|apply checks_ret]. split; [constructor|done].
  - eapply checks_iff; [|apply checks_seq; [apply Hx|apply IH]].
    split; [intros []; by constructor|by inversion 1].
Qed.
End checks.

Section messages.
Context (exists_path : string → bool) (py_int : string → option Z).
Context (Q : gui → gui → Prop).
Context (Hshow : ∀ s w msg, check_message msg → Q s (s ++ [(w, msg)])).

Lemma checks_unless (b : bool) w msg :
  check_message msg → checks (b = false) Q (when b (display w msg)).
Proof.
  intros Hmsg s. destruct b; cbn.
  - right. split; [discriminate|]. unfold display. eexists _, _.
    split; [reflexivity|]. split; [done|]. by apply Hshow.
  - left. done.
Qed.

Lemma message_empty key : check_message (key +:+ " field is empty!").
Proof. exists key. auto. Qed.
Lemma message_path key :
  check_message (key +:+ " field contains incorrect path. Please enter correct path!").
Proof. exists key. auto. Qed.
Lemma message_entry : check_message "Invalid Entry. Only 1 and 0 entry allowed".
Proof. exists "". auto. Qed.
Lemma message_count key :
  check_message ("Number of values in " +:+ key +:+
                 " do not match specified columns in the model").
Proof. exists key. auto 6. Qed.
Lemma message_grouping :
  check_message "Grouping variable/column not a valid column in the model. Please verify the name".
Proof. exists "". auto 6. Qed.

Lemma check_values_checks (config_map : gmap string entry) (columns : list string)
    key (val : entry) :
  ((∀ s, Q s s) ∨ is_Some (mapM py_int (split comma (value val)))) →
  checks (∃ ints, mapM py_int (split comma (value val)) = Some ints ∧
                  Forall (λ v, v = 1 ∨ v = 0)%Z ints ∧
                  length ints = length columns) Q
    (value ← comprehension (int py_int) (split comma (value val)) ;
     for_each value (λ v,
       when (bool_decide (v ∉ [1; 0]%Z))
         (display (win val) "Invalid Entry. Only 1 and 0 entry allowed")) ;;
     when (bool_decide (length value ≠ length columns))
       (display (win val)
          ("Number of values in " +:+ key +:+
           " do not match specified columns in the model"))).
Proof.
  intros Hsilent s.
  pose proof (comprehension_int py_int (split comma (value val)) s) as Hc.
  destruct (mapM py_int (split comma (value val))) as [zs|].
  - rewrite (bind_return _ _ _ _ _ Hc).
    pose proof (checks_seq Q _ _ _ _
      (checks_for_each Q (λ v, bool_decide (v ∉ [1; 0]%Z) = false) zs _
         (Forall_true _ _ (λ v, checks_unless _ (win val) _ message_entry)))
      (checks_unless (bool_decide (length zs ≠ length columns)) (win val) _
         (message_count key)) s) as [[[HF HL] ->]|[Hn Hr]].
    + left. split; [|done]. exists zs. split; [done|].
      apply bool_decide_eq_false in HL. split; [|by apply dec_stable].
      eapply Forall_impl; [exact HF|]. intros v Hv%bool_decide_eq_false.
      apply dec_stable in Hv. rewrite !elem_of_cons, elem_of_nil in Hv.
      destruct Hv as [|[|[]]]; auto.
    + right. split; [|exact Hr]. intros (ints & [= <-] & HF & HL). apply Hn. split.
      * eapply Forall_impl; [exact HF|]. intros v Hv. apply bool_decide_eq_false.
        intros Hv'. apply Hv'. rewrite !elem_of_cons. destruct Hv; auto.
      * apply bool_decide_eq_false. tauto.
  - right. split; [by intros (ints & ? & _)|]. destruct Hc as [s' Hc].
    destruct Hsilent as [Hq|[? [=]]].
    assert (s' = s) as ->.
    { clear -Hc. revert s' Hc. generalize (split comma (value val)) as l.
      induction l as [|v l IH]; intros s' Hc; [discriminate Hc|].
      cbn in Hc. unfold mbind, St_bind in Hc. unfold int at 1 in Hc.
      destruct (py_int v); cbn in Hc; [|by injection Hc].
      destruct (comprehension (int py_int) l s) as [[ys|e] s1] eqn:E;
        cbn in Hc; [discriminate Hc|]. injection Hc as -> ->. by apply IH. }
    rewrite (bind_raise _ _ _ _ _ Hc). eexists _, _. split; [done|]. split; [done|apply Hq].
Qed.

Lemma check_grouping_checks (config_map : gmap string entry) (columns : list string)
    key (val : entry) :
  ((∀ s, Q s s) ∨ is_Some (config_map !! "modelGroupVariancesSeparately")) →
  checks (∃ m, value <$> config_map !! "modelGroupVariancesSeparately" = Some m ∧
               (m = "On" → value val ≠ "" ∧ value val ∈ columns)) Q
    (separately ← get_item value (config_map !! "modelGroupVariancesSeparately") ;
     when (bool_decide (separately = "On"))
       (when (bool_decide (String.length (value val) = 0))
          (display (win val) (key +:+ " field is empty!")) ;;
        when (bool_decide (value val ∉ columns))
          (display (win val)
             "Grouping variable/column not a valid column in the model. Please verify the name"))).
Proof.
  intros Hsilent s.
  destruct (config_map !! "modelGroupVariancesSeparately") as [e|]; cbn.
  - rewrite (bind_return _ _ s (value e) s) by done.
    pose proof (checks_when Q (bool_decide (value e = "On")) _ _
      (checks_seq Q _ _ _ _
         (checks_unless (bool_decide (String.length (value val) = 0)) (win val) _
            (message_empty key))
         (checks_unless (bool_decide (value val ∉ columns)) (win val) _
            message_grouping))
      s) as [[HP ->]|[Hn Hr]].
    + left. split; [|done]. exists (value e). split; [done|]. intros HOn.
      destruct HP as [H1 H2]; [by apply bool_decide_eq_true|].
      apply bool_decide_eq_false in H1, H2. rewrite length_zero in H1.
      split; [done|by apply dec_stable].
    + right. split; [|exact Hr]. intros (m & [= <-] & Hm). apply Hn.
      intros HOn%bool_decide_eq_true. destruct (Hm HOn) as [H1 H2].
      split; apply bool_decide_eq_false; [by rewrite length_zero|tauto].
  - right. split; [by intros (m & ? & _)|].
    rewrite (bind_raise _ _ s TypeError s) by done.
    destruct Hsilent as [Hq|[? [=]]]. eexists _, _. split; [done|]. split; [done|apply Hq].
Qed.

Lemma check_field_checks config_map columns key val :
  speaks py_int Q config_map key val →
  checks (field_passes exists_path py_int columns
            (value <$> config_map !! "modelGroupVariancesSeparately") key val) Q
         (check_field exists_path py_int config_map columns key val).
Proof.
  intros Hsp. unfold check_field, field_passes.
  eapply checks_iff; [|apply checks_seq; [apply checks_unless, message_empty|
    apply checks_seq; [apply checks_when, checks_unless, message_path|
    apply checks_seq; [apply checks_when_if; intros Hk; apply check_values_checks|
    apply checks_when_if; intros Hk; apply check_grouping_checks]]]].
  - rewrite andb_false_iff, andb_true_iff, negb_false_iff,
      !bool_decide_eq_false, !bool_decide_eq_true, length_zero.
    split.
    + intros (H1 & H2 & H3 & H4). repeat split; tauto.
    + intros (H1 & H2 & H3 & H4). repeat split; try tauto.
      destruct (decide (key = "groupingVariable")); [left; tauto|right; tauto].
  - done.
  - apply bool_decide_eq_true in Hk.
    destruct Hsp as [Hq|[Hnum _]]; [by left|right; by apply Hnum].
  - apply bool_decide_eq_true in Hk.
    destruct Hsp as [Hq|[_ Hkey]]; [by left|right; by apply Hkey].
Qed.

(** What [validate] does for any order of the items. *)
Lemma validate_in_cases order (config_map : gmap string entry) (s : gui) :
  ((∀ s, Q s s) ∨ is_Some (config_map !! "columnsInModel")) →
  Forall (λ kv, speaks py_int Q config_map kv.1 kv.2) order →
  let passes :=
    ∃ c, config_map !! "columnsInModel" = Some c ∧
         Forall (λ kv, field_passes exists_path py_int (strip <$> split comma (value c))
                         (value <$> config_map !! "modelGroupVariancesSeparately")
                         kv.1 kv.2) order in
  (passes ∧ validate_in exists_path py_int order config_map s = (Return 1%Z, s)) ∨
  (¬ passes ∧ ∃ s', validate_in exists_path py_int order config_map s
                    = (Return (-1)%Z, s') ∧ Q s s').
Proof.
  intros Hcol Hsp passes. subst passes.
  unfold validate_in, try_except_Exception, validate_body_in.
  destruct (config_map !! "columnsInModel") as [c|] eqn:Ec.
  - rewrite (bind_return _ _ s (value c) s) by done.
    destruct (split_cons comma (value c)) as (x & l & Hsplit).
    destruct (strip <$> split comma (value c)) as [|y ys] eqn:Ecols;
      [by rewrite Hsplit in Ecols|].
    cbv iota. rewrite <- Ecols. clear x l Hsplit y ys Ecols.
    pose proof (checks_for_each Q
      (λ kv, field_passes exists_path py_int (strip <$> split comma (value c))
               (value <$> config_map !! "modelGroupVariancesSeparately") kv.1 kv.2)
      order (λ kv, check_field exists_path py_int config_map
                     (strip <$> split comma (value c)) kv.1 kv.2)) as Hloop.
    destruct (Hloop (Forall_impl _ _ _ Hsp
                (λ kv H, check_field_checks config_map _ kv.1 kv.2 H)) s)
      as [[HF Hrun]|[HF (e & s' & Hrun & He & HQ)]].
    + left. rewrite (bind_return _ _ _ _ _ Hrun). split; [|done]. eauto.
    + right. rewrite (bind_raise _ _ _ _ _ Hrun), He. split; [|eauto].
      intros (c' & [= <-] & Hall). by apply HF.
  - right. rewrite (bind_raise _ _ s TypeError s) by done.
    split; [by intros (c & ? & _)|]. exists s. split; [done|].
    destruct Hcol as [Hq|[? [=]]]. apply Hq.
Qed.
End messages.

Lemma last_char_app (a b : string) : b ≠ "" → last_char (a +:+ b) = last_char b.
Proof.
  intros Hb. induction a as [|x a IH]; [done|].
  change (last_char (String x (a +:+ b)) = last_char b).
  cbn. rewrite IH. destruct (a +:+ b) eqn:E; [|done].
  destruct a; [destruct (Hb E)|discriminate E].
Qed.

Lemma check_message_in_loop msg :
  check_message msg → msg ≠ "No columns specified for the model".
Proof.
  intros [key [-> | [-> | [-> | [-> | ->] ] ] ] ] H.
  - apply (f_equal last_char) in H. rewrite last_char_app in H; [|done].
    vm_compute in H. discriminate H.
  - apply (f_equal last_char) in H. rewrite last_char_app in H; [|done].
    vm_compute in H. discriminate H.
  - discriminate H.
  - vm_compute in H. discriminate H.
  - discriminate H.
Qed.

(** X8: [validate] always returns 1 or -1; with 1 it shows nothing, with -1
    it has shown nothing or exactly one message box, whose text is one of
    the five of the loop and never [No columns specified for the model]. *)
Theorem validate_one_message exists_path py_int (config_map : gmap string entry) (shown : gui) :
  ∃ r shown',
    validate exists_path py_int config_map shown = (Return r, shown') ∧
    ((r = 1%Z ∧ shown' = shown) ∨
     (r = (-1)%Z ∧
      (shown' = shown ∨
       ∃ w msg, shown' = shown ++ [(w, msg)] ∧ check_message msg ∧
                msg ≠ "No columns specified for the model"))).
Proof.
  change (validate exists_path py_int config_map)
    with (validate_in exists_path py_int (map_to_list config_map) config_map).
  destruct (validate_in_cases exists_path py_int quietly
              (λ s w msg H, or_intror (ex_intro _ w (ex_intro _ msg (conj eq_refl H))))
              (map_to_list config_map) config_map shown)
    as [[_ ->]|[_ (s' & -> & HQ)]].
  - left. by left.
  - apply Forall_true. intros kv. left. intros s. by left.
  - eexists _, _. split; [done|]. by left.
  - eexists _, _. split; [done|]. right. split; [done|].
    destruct HQ as [->|(w & msg & -> & Hmsg)]; [by left|right].
    exists w, msg. split; [done|]. split; [done|]. by apply check_message_in_loop.
Qed.

(** X9: where [config_map] has the keys [columnsInModel] and
    [modelGroupVariancesSeparately] and every piece of the two list fields
    is accepted by [int], [validate] returns 1 showing nothing or returns -1
    having shown exactly one message box. *)
Theorem validate_speaks exists_path py_int (config_map : gmap string entry) (shown : gui) :
  is_Some (config_map !! "columnsInModel") →
  is_Some (config_map !! "modelGroupVariancesSeparately") →
  map_Forall (numbers_parse py_int) config_map →
  validate exists_path py_int config_map shown = (Return 1%Z, shown) ∨
  ∃ w msg, validate exists_path py_int config_map shown
           = (Return (-1)%Z, shown ++ [(w, msg)]) ∧ check_message msg.
Proof.
  intros Hcol Hsep Hnum.
  change (validate exists_path py_int config_map)
    with (validate_in exists_path py_int (map_to_list config_map) config_map).
  destruct (validate_in_cases exists_path py_int loudly
              (λ s w msg H, ex_intro _ w (ex_intro _ msg (conj eq_refl H)))
              (map_to_list config_map) config_map shown)
    as [[_ ->]|[_ (s' & -> & (w & msg & -> & Hmsg))]].
  - by right.
  - apply map_Forall_to_list in Hnum.
    eapply Forall_impl; [exact Hnum|]. intros [k v] H. right. split; [exact H|done].
  - by left.
  - right. eauto.
Qed.

(** X10: without the key [columnsInModel], [validate] returns -1 and shows
    nothing. *)
Theorem validate_missing_columns exists_path py_int (config_map : gmap string entry)
    (shown : gui) :
  config_map !! "columnsInModel" = None →
  validate exists_path py_int config_map shown = (Return (-1)%Z, shown).
Proof.
  intros Hc. unfold validate, try_except_Exception, validate_body.
  rewrite Hc. by rewrite (bind_raise _ _ shown TypeError shown).
Qed.

(** X11: the value [validate] returns does not depend on the order in which
    the dictionary yields its items. *)
Theorem validate_any_order exists_path py_int (config_map : gmap string entry)
    (order : list (string * entry)) (shown : gui) :
  order ≡ₚ map_to_list config_map →
  (validate_in exists_path py_int order config_map shown).1
  = (validate exists_path py_int config_map shown).1.
Proof.
  intros Hperm.
  change (validate exists_path py_int config_map)
    with (validate_in exists_path py_int (map_to_list config_map) config_map).
  assert (Hq : ∀ l, Forall (λ kv : string * entry,
                 speaks py_int (λ _ _, True) config_map kv.1 kv.2) l)
    by (intros l; apply Forall_true; intros kv; by left).
  destruct (validate_in_cases exists_path py_int (λ _ _, True) (λ _ _ _ _, I)
              order config_map shown (or_introl (λ _, I)) (Hq _))
    as [[H1 ->]|[H1 (s1 & -> & _)]];
  destruct (validate_in_cases exists_path py_int (λ _ _, True) (λ _ _ _ _, I)
              (map_to_list config_map) config_map shown (or_introl (λ _, I)) (Hq _))
    as [[H2 ->]|[H2 (s2 & -> & _)]]; try done.
  - exfalso. apply H2. destruct H1 as (c & Hc & HF). exists c. split; [done|].
    by rewrite <- Hperm.
  - exfalso. apply H1. destruct H2 as (c & Hc & HF). exists c. split; [done|].
    by rewrite Hperm.
Qed.

Lemma for_each_ext {S A} (l : list A) (f g : A → St S unit) :
  Forall (λ x, ∀ s, f x s = g x s) l → ∀ s, for_each l f s = for_each l g s.
Proof.
  induction 1 as [|x l Hx _ IH]; intros s; [done|].
  cbn. unfold mbind, St_bind. rewrite Hx. destruct (g x s) as [[[]|e] s']; [apply IH|done].
Qed.

(** X12: [validate] asks whether a path exists only for values that contain
    a slash in fields with validation on: two file systems that agree on
    those values give the same result and the same messages. *)
Theorem validate_paths_consulted ep1 ep2 py_int (config_map : gmap string entry)
    (shown : gui) :
  map_Forall (λ _ e, contains slash (value e) = true → validation e = true →
                     ep1 (value e) = ep2 (value e)) config_map →
  validate ep1 py_int config_map shown = validate ep2 py_int config_map shown.
Proof.
  intros Hag. unfold validate, try_except_Exception.
  assert (validate_body ep1 py_int config_map shown
          = validate_body ep2 py_int config_map shown) as ->; [|done].
  unfold validate_body, mbind, St_bind.
  destruct (get_item value (config_map !! "columnsInModel") shown) as [[c|e] s']; [|done].
  destruct (strip <$> split comma c) as [|x cols]; [done|].
  rewrite (for_each_ext (map_to_list config_map)
             (λ kv, check_field ep1 py_int config_map (x :: cols) kv.1 kv.2)
             (λ kv, check_field ep2 py_int config_map (x :: cols) kv.1 kv.2)); [done|].
  apply map_Forall_to_list in Hag. eapply Forall_impl; [exact Hag|].
  intros [k e] H s. cbn in H |- *. unfold check_field.
  destruct (contains slash (value e)) eqn:Ec; [|done].
  destruct (validation e) eqn:Ev; [|done].
  by rewrite H.
Qed.

Lemma written_value_raises substitution_map literal_eval (it : item) (f : string) :
  claimed_value substitution_map literal_eval it = None →
  written_value substitution_map literal_eval it f
  = (Raise (match literal_eval (item_value it) with
            | Return _ => TypeError
            | Raise e => e
            end), f).
Proof.
  unfold written_value, claimed_value, literal.
  repeat case_decide; try done.
  - destruct (substitution_map !! item_value it) as [alias|]; [done|]. cbn.
    by destruct (literal_eval (item_value it)).
  - unfold mbind, St_bind, mret, St_ret.
    destruct (literal_eval (item_value it)) as [o|e]; cbn; [|done].
    by destruct (py_iter o).
Qed.

(** X13: at the first item whose value does not evaluate, the loop of [save]
    raises (the exception [ast.literal_eval] raises where it fails,
    [TypeError] where the literal of a type-5 item cannot be iterated),
    having written the items before it in full and nothing of this item or
    of those after it. *)
Theorem write_config_stops substitution_map literal_eval py_repr
    (before after : list item) (bad : item) (f : string) :
  map_Forall (λ _ v, v ≠ PyNone) substitution_map →
  Forall (well_formed substitution_map literal_eval) before →
  claimed_value substitution_map literal_eval bad = None →
  write_config substitution_map literal_eval py_repr (before ++ bad :: after) f
  = (Raise (match literal_eval (item_value bad) with
            | Return _ => TypeError
            | Raise e => e
            end),
     f +:+ claimed_file substitution_map literal_eval py_repr before).
Proof.
  intros Hmap Hwf Hbad. revert f. unfold write_config, claimed_file.
  induction Hwf as [|it l (Hname & v & Hv & Hend) _ IH]; intros f; cbn.
  - rewrite str_app_nil_r. apply bind_raise. unfold write_item.
    by rewrite (bind_raise _ _ _ _ _ (written_value_raises _ _ bad f Hbad)).
  - rewrite (bind_return_eq _ _ _ _ _
      (write_item_claimed _ _ py_repr Hmap it v f Hname Hv Hend)).
    rewrite IH, Hv. cbn [fmap option_fmap option_map default]. by rewrite str_app_assoc.
Qed.

Lemma validate_speaks_witness :
  is_Some (sample_config_map !! "columnsInModel") ∧
  is_Some (sample_config_map !! "modelGroupVariancesSeparately") ∧
  map_Forall (numbers_parse sample_int) sample_config_map ∧
  (validate (λ _, true) sample_int sample_config_map [] = (Return 1%Z, []) ∨
   ∃ w msg, validate (λ _, true) sample_int sample_config_map []
            = (Return (-1)%Z, [] ++ [(w, msg)]) ∧ check_message msg).
Proof.
  assert (H1 : is_Some (sample_config_map !! "columnsInModel"))
    by (eexists; vm_compute; reflexivity).
  assert (H2 : is_Some (sample_config_map !! "modelGroupVariancesSeparately"))
    by (eexists; vm_compute; reflexivity).
  assert (H3 : map_Forall (numbers_parse sample_int) sample_config_map).
  { intros k e Hke [Hk|Hk]; subst k; vm_compute in Hke;
      first [discriminate Hke
            |injection Hke as <-; eexists; vm_compute; reflexivity]. }
  split; [exact H1|]. split; [exact H2|]. split; [exact H3|].
  exact (validate_speaks (λ _, true) sample_int sample_config_map [] H1 H2 H3).
Defined.

Lemma validate_missing_columns_witness :
  let config_map : gmap string entry := {[ "modelName" := mk_entry 9 "model_1" true ]} in
  config_map !! "columnsInModel" = None ∧
  validate (λ _, true) sample_int config_map [] = (Return (-1)%Z, []).
Proof.
  intros config_map.
  assert (H : config_map !! "columnsInModel" = None) by (vm_compute; reflexivity).
  split; [exact H|].
  exact (validate_missing_columns (λ _, true) sample_int config_map [] H).
Defined.

Lemma validate_any_order_witness :
  reverse (map_to_list sample_config_map) ≡ₚ map_to_list sample_config_map ∧
  (validate_in (λ _, true) sample_int (reverse (map_to_list sample_config_map))
     sample_config_map []).1
  = (validate (λ _, true) sample_int sample_config_map []).1.
Proof.
  assert (H : reverse (map_to_list sample_config_map) ≡ₚ map_to_list sample_config_map)
    by apply reverse_Permutation.
  split; [exact H|].
  exact (validate_any_order (λ _, true) sample_int sample_config_map _ [] H).
Defined.

Lemma validate_paths_consulted_witness :
  let config_map : gmap string entry :=
    {[ "columnsInModel" := mk_entry 3 "age" true;
       "subjectListFile" := mk_entry 4 "/data/subjects.txt" false ]} in
  map_Forall (λ _ e, contains slash (value e) = true → validation e = true →
                     (λ _ : string, true) (value e) = (λ _ : string, false) (value e))
             config_map ∧
  validate (λ _, true) sample_int config_map []
  = validate (λ _, false) sample_int config_map [].
Proof.
  intros config_map.
  assert (H : map_Forall (λ _ e, contains slash (value e) = true → validation e = true →
                (λ _ : string, true) (value e) = (λ _ : string, false) (value e))
              config_map).
  { apply map_Forall_insert_2; [intros Hc; vm_compute in Hc; discriminate Hc|].
    apply map_Forall_singleton. intros _ Hv. discriminate Hv. }
  split; [exact H|].
  exact (validate_paths_consulted (λ _, true) (λ _, false) sample_int config_map [] H).
Defined.

Lemma write_config_stops_witness :
  let before := [mk_item "modelName" "model_1" 0 "Specify a name for the new model."] in
  let bad := mk_item "deMean" "3" 5 "Specify whether to demean each of the EVs." in
  let after := [mk_item "columnsInModel" "age, sex" 4 "EVs to include."] in
  map_Forall (λ _ v, v ≠ PyNone) sample_substitution_map ∧
  Forall (well_formed sample_substitution_map sample_literal_eval) before ∧
  claimed_value sample_substitution_map sample_literal_eval bad = None ∧
  write_config sample_substitution_map sample_literal_eval sample_repr
               (before ++ bad :: after) ""
  = (Raise TypeError,
     "" +:+ claimed_file sample_substitution_map sample_literal_eval sample_repr before).
Proof.
  intros before bad after.
  assert (H1 : map_Forall (λ _ v, v ≠ PyNone) sample_substitution_map).
  { apply map_Forall_to_list. vm_compute. repeat constructor; discriminate. }
  assert (H2 : Forall (well_formed sample_substitution_map sample_literal_eval) before).
  { repeat constructor; eexists; (split; [vm_compute; reflexivity|reflexivity]). }
  assert (H3 : claimed_value sample_substitution_map sample_literal_eval bad = None)
    by (vm_compute; reflexivity).
  split; [exact H1|]. split; [exact H2|]. split; [exact H3|].
  exact (write_config_stops sample_substitution_map sample_literal_eval sample_repr
           before after bad "" H1 H2 H3).
Defined.
End Forms.

Module Reading.
Import Py ModelConfig Form Config.

Lemma intercalate_cons (sep x y : string) (l : list string) :
  intercalate sep (x :: y :: l) = x +:+ sep +:+ intercalate sep (y :: l).
Proof. reflexivity. Qed.

Section load.
Context (substitution_map : gmap string pyobj)
        (py_repr : pyobj → string)
        (py_eqb : pyobj → pyobj → bool).

Local Abbreviation str := (py_str py_repr).
Local Abbreviation step := (join_step py_repr).

Lemma join_from (s : string) (l : list pyobj) :
  s ≠ "" → foldl step (Some s) l = Some (intercalate "," (s :: (str <$> l))).
Proof.
  revert s. induction l as [|v l IH]; intros s Hs; [done|].
  cbn [foldl fmap list_fmap]. unfold join_step at 2.
  rewrite bool_decide_true by done.
  rewrite IH by (by destruct s).
  f_equal. rewrite intercalate_cons.
  destruct l as [|v' l]; cbn [fmap list_fmap].
  - reflexivity.
  - rewrite !intercalate_cons. by rewrite !str_app_assoc.
Qed.

Lemma join_from_empty (l : list pyobj) :
  foldl step (Some "") l = Some (intercalate "," (drop_empty (str <$> l))).
Proof.
  induction l as [|v l IH]; [done|].
  cbn [foldl fmap list_fmap]. unfold join_step at 2.
  rewrite bool_decide_false by (by intros H; apply H).
  destruct (str v) as [|a s] eqn:E; [exact IH|].
  rewrite join_from by done. reflexivity.
Qed.

Lemma join_values_text (l : list pyobj) :
  str_val py_repr (join_values py_repr l)
  = match l with
    | [] => str PyNone
    | _ => intercalate "," (drop_empty (str <$> l))
    end.
Proof.
  destruct l as [|v l]; [done|].
  unfold join_values. cbn [foldl]. unfold join_step at 2.
  destruct (str v) as [|a s] eqn:E.
  - rewrite join_from_empty. cbn [fmap list_fmap str_val]. by rewrite E.
  - rewrite join_from by done. cbn [fmap list_fmap str_val]. by rewrite E.
Qed.

End load.


Lemma dict_get_alias (substitution_map : gmap string pyobj) py_eqb
    (label : string) (alias value : pyobj) :
  substitution_map !! label = Some alias →
  py_eqb alias value = true →
  (∀ k a, substitution_map !! k = Some a → py_eqb a value = true → k = label) →
  dict_get py_eqb (s_map_items substitution_map) value = Some label.
Proof.
  intros Hl Heq Hinj. unfold dict_get.
  set (found := filter (λ kv : pyobj * string, py_eqb kv.1 value = true)
                       (reverse (s_map_items substitution_map))).
  assert (Hin : (alias, label) ∈ found).
  { apply list_elem_of_filter. split; [done|]. rewrite elem_of_reverse.
    apply list_elem_of_fmap. exists (label, alias). split; [done|].
    by apply elem_of_map_to_list. }
  assert (Hall : ∀ p, p ∈ found → p.2 = label).
  { intros p [Hp Hq]%list_elem_of_filter. rewrite elem_of_reverse in Hq.
    apply list_elem_of_fmap in Hq as ([k a] & -> & Hka).
    apply elem_of_map_to_list in Hka. by apply (Hinj k a). }
  destruct found as [|p found']; [by apply elem_of_nil in Hin|].
  cbn. f_equal. apply Hall. by left.
Qed.

(** X15: where the value found for a control can be a dictionary key and is
    equal to the alias of one label of [substitution_map] and of no other,
    the text [load] gives the control is that label. *)
Theorem load_alias_label substitution_map py_repr py_eqb
    (label : string) (alias value : pyobj) (form : gmap string string) :
  substitution_map !! label = Some alias →
  hashable value = true →
  py_eqb alias value = true →
  (∀ k a, substitution_map !! k = Some a → py_eqb a value = true → k = label) →
  loaded_text substitution_map py_repr py_eqb value form = (Return label, form).
Proof.
  intros Hl Hhash Heq Hinj.
  pose proof (dict_get_alias _ _ _ _ _ Hl Heq Hinj) as Hget.
  destruct value; cbn in Hhash |- *; try done; rewrite ?Hhash, Hget; done.
Qed.

Lemma split_app (sep : ascii) (x r : string) :
  contains sep x = false → split sep (x +:+ String sep r) = x :: split sep r.
Proof.
  induction x as [|a x IH]; intros Hx.
  - change (split sep (String sep r) = "" :: split sep r). cbn.
    by rewrite Ascii.eqb_refl.
  - change (split sep (String a (x +:+ String sep r)) = String a x :: split sep r).
    cbn in Hx |- *. apply orb_false_iff in Hx as [Ha Hx].
    rewrite Ha, IH by done. done.
Qed.

Lemma split_one (sep : ascii) (x : string) :
  contains sep x = false → split sep x = [x].
Proof.
  induction x as [|a x IH]; intros Hx; [done|].
  cbn in Hx |- *. apply orb_false_iff in Hx as [Ha Hx].
  by rewrite Ha, IH.
Qed.

Lemma split_intercalate (l : list string) :
  l ≠ [] → Forall (λ x, contains comma x = false) l →
  split comma (intercalate "," l) = l.
Proof.
  intros Hne Hl. induction Hl as [|x l Hx Hl IH]; [done|].
  destruct l as [|y l]; [by apply split_one|].
  rewrite intercalate_cons.
  change ("," +:+ intercalate "," (y :: l))
    with (String comma (intercalate "," (y :: l))).
  rewrite split_app by done. f_equal. by apply IH.
Qed.

(** X16: the text [load] gives a control for a list that is not empty,
    where the texts of the elements hold no comma, are stripped and the
    first is not empty, is read back by the type-4 case of [save] as the
    list of exactly these texts: splitting at the commas and stripping
    undoes the joining. *)
Theorem load_text_splits substitution_map literal_eval py_repr py_eqb
    (l : list pyobj) (name help : string) (f : string) (form : gmap string string) :
  l ≠ [] →
  head (py_str py_repr <$> l) ≠ Some "" →
  Forall (λ x, contains comma x = false ∧ strip x = x) (py_str py_repr <$> l) →
  ∃ text,
    loaded_text substitution_map py_repr py_eqb (PyList l) form = (Return text, form) ∧
    written_value substitution_map literal_eval (mk_item name text 4 help) f
    = (Return (PyList (PyStr <$> (py_str py_repr <$> l))), f).
Proof.
  intros Hne Hhead Htexts. eexists. split; [reflexivity|].
  rewrite join_values_text. destruct l as [|v l]; [done|]. clear Hne.
  set (texts := py_str py_repr <$> v :: l) in *.
  assert (drop_empty texts = texts) as ->.
  { subst texts. cbn [fmap list_fmap head] in Hhead |- *.
    destruct (py_str py_repr v) eqn:E; [by destruct Hhead|done]. }
  unfold written_value. cbn [item_dtype item_value].
  rewrite decide_False by done. rewrite decide_False by done.
  rewrite decide_True by done. unfold mret, St_ret. do 2 f_equal.
  rewrite split_intercalate.
  - f_equal. apply Forall_fmap_ext_1. eapply Forall_impl; [exact Htexts|].
    intros x [_ Hx]. cbn beta. by rewrite Hx.
  - by subst texts.
  - eapply Forall_impl; [exact Htexts|]. by intros x [Hx _].
Qed.


Lemma load_alias_label_witness :
  loaded_text sample_substitution_map sample_repr sample_eqb (PyInt 1) ∅
  = (Return "On", ∅).
Proof.
  apply (load_alias_label sample_substitution_map sample_repr sample_eqb
           "On" (PyInt 1) (PyInt 1) ∅).
  - vm_compute. reflexivity.
  - reflexivity.
  - vm_compute. reflexivity.
  - intros k a Hk He. unfold sample_substitution_map in Hk.
    apply lookup_insert_Some in Hk as [[Hk _]|[_ Hk]]; [by symmetry|].
    apply lookup_singleton_Some in Hk as [_ Ha]. subst a.
    vm_compute in He. discriminate He.
Defined.

Lemma load_text_splits_witness :
  let l := [PyStr "age"; PyStr "sex"] in
  l ≠ [] ∧
  head (py_str sample_repr <$> l) ≠ Some "" ∧
  Forall (λ x, contains comma x = false ∧ strip x = x) (py_str sample_repr <$> l) ∧
  ∃ text,
    loaded_text sample_substitution_map sample_repr sample_eqb (PyList l) ∅
    = (Return text, ∅) ∧
    written_value sample_substitution_map sample_literal_eval
      (mk_item "columnsInModel" text 4 "EVs to include.") ""
    = (Return (PyList (PyStr <$> (py_str sample_repr <$> l))), "").
Proof.
  intros l.
  assert (H1 : l ≠ []) by discriminate.
  assert (H2 : head (py_str sample_repr <$> l) ≠ Some "") by discriminate.
  assert (H3 : Forall (λ x, contains comma x = false ∧ strip x = x)
                      (py_str sample_repr <$> l)).
  { repeat constructor. }
  split; [exact H1|]. split; [exact H2|]. split; [exact H3|].
  exact (load_text_splits sample_substitution_map sample_literal_eval sample_repr
           sample_eqb l "columnsInModel" "EVs to include." "" ∅ H1 H2 H3).
Defined.
End Reading.
